(** * vue-types: the namespace facade of [src/index.ts]

    A shallow embedding of [createTypes] (the [VueTypes] class it returns, with
    its [sensibleDefaults] accessor pair, the convenience getters, [extend] and
    [utils.validate]) over an explicit JavaScript store, together with the
    descriptor builder and the validation dispatcher the facade calls.

    JavaScript objects live in a store and are named by their index, so that
    two references to one object alias and a copy ([{ ...o }],
    [Object.assign({}, o)]) is a new index holding the same fields. *)

From Stdlib Require Import ZArith.
From stdpp Require Import base option list gmap strings pretty.

Local Open Scope string_scope.
Local Open Scope list_scope.
Set Warnings "-register-all".

(** ** Values *)

(** The native constructors a [type] field can name. *)
Inductive ctor :=
  | StringC | NumberC | BooleanC | FunctionC | ArrayC | ObjectC | SymbolC.

(** Runtime values handed to validators and stored as defaults.  A number is a
    ratio [num / den]; a function value is abstracted to what a call without
    arguments returns, which is the only way this code calls one (default
    factories); arrays and plain objects are immutable trees. *)
Inductive value :=
  | VUndef
  | VNull
  | VBool (b : bool)
  | VNum (num : Z) (den : positive)
  | VStr (s : string)
  | VSym (id : nat)
  | VFun (returns : value)
  | VArr (items : list value)
  | VObj (entries : list (string * value)).

Definition loc := nat.

(** What a [type] field (or the first argument of [validateType]) can hold: one
    constructor, an array of constructors, or a reference to an object of the
    store (a descriptor, when [extend] inherits from one). *)
Inductive TypeField :=
  | Native (c : ctor)
  | NativeList (cs : list ctor)
  | Obj (l : loc).

(** Validator functions, as the closures the code builds.  A predicate written
    by the user is a pure function of its argument list. *)
Inductive vfun :=
  | VUser (p : list value → bool)
  | VStubTrue
      (* stubTrue *)
  | VInherit (type : loc) (validator : vfun)
      (* function (...args) {
           return type.validator.apply(type, args) && validator.apply(this, args) } *)
  | VBound (validator : vfun) (args : list value).
      (* validator.bind(ret, ...args) *)

(** A prop-options object.  [o_name] is the hidden [_vueTypes_name] property
    ([None] on a plain options object) and [o_validable] records whether the
    [validate] chain method is attached. *)
Record PropObj := mkObj {
  o_type : option TypeField;
  o_required : option bool;
  o_default : option value;
  o_validator : option vfun;
  o_name : option string;
  o_validable : bool;
}.

Definition emptyObj : PropObj := mkObj None None None None None false.
Global Instance PropObj_inhabited : Inhabited PropObj := populate emptyObj.

Definition set_type (t : option TypeField) (o : PropObj) : PropObj :=
  mkObj t (o_required o) (o_default o) (o_validator o) (o_name o) (o_validable o).
Definition set_required (r : option bool) (o : PropObj) : PropObj :=
  mkObj (o_type o) r (o_default o) (o_validator o) (o_name o) (o_validable o).
Definition set_default (d : option value) (o : PropObj) : PropObj :=
  mkObj (o_type o) (o_required o) d (o_validator o) (o_name o) (o_validable o).
Definition set_validator (f : option vfun) (o : PropObj) : PropObj :=
  mkObj (o_type o) (o_required o) (o_default o) f (o_name o) (o_validable o).
Definition set_chain (n : string) (validable : bool) (o : PropObj) : PropObj :=
  mkObj (o_type o) (o_required o) (o_default o) (o_validator o) (Some n) validable.

(** ** The namespace object *)

(** The property descriptor [extend] defines, as the variables its function
    closes over: [{ get() {...} }] over [name], [opts] and [validate], or
    [{ value(...args) {...} }] over these and [validator]. *)
Inductive Installed :=
  | Getter (name : string) (opts : loc) (validate : bool)
  | Method (name : string) (opts : loc) (validate : bool)
      (validator : option vfun).

(** An own property of the [VueTypes] class: one declared in the class body, or
    one defined by [extend]. *)
Inductive Member :=
  | Builtin
  | Extended (descriptor : Installed).

(** The state one call of [createTypes] closes over: the parameter [defs], the
    variable [defaults], and the own properties of the class. *)
Record Namespace := mkNs {
  ns_defs : loc;
  ns_defaults : loc;
  ns_props : gmap string Member;
}.

Definition set_defaults (l : loc) (N : Namespace) : Namespace :=
  mkNs (ns_defs N) l (ns_props N).
Definition set_props (p : gmap string Member) (N : Namespace) : Namespace :=
  mkNs (ns_defs N) (ns_defaults N) p.

Definition emptyNs : Namespace := mkNs 0 0 ∅.
Global Instance Namespace_inhabited : Inhabited Namespace := populate emptyNs.

(** ** The store *)

Record World := mkWorld {
  records : list (gmap string value);  (* defaults records and config objects *)
  objects : list PropObj;              (* options objects and descriptors *)
  spaces : list Namespace;             (* the classes createTypes returned *)
  silent : bool;                       (* the flag that mutes the sink *)
  console : list string;               (* what the sink received *)
}.

Definition world0 : World := mkWorld [] [] [] false [].

Definition with_records (r : list (gmap string value)) (w : World) : World :=
  mkWorld r (objects w) (spaces w) (silent w) (console w).
Definition with_objects (o : list PropObj) (w : World) : World :=
  mkWorld (records w) o (spaces w) (silent w) (console w).
Definition with_spaces (s : list Namespace) (w : World) : World :=
  mkWorld (records w) (objects w) s (silent w) (console w).
Definition with_silent (b : bool) (w : World) : World :=
  mkWorld (records w) (objects w) (spaces w) b (console w).
Definition with_console (c : list string) (w : World) : World :=
  mkWorld (records w) (objects w) (spaces w) (silent w) c.

(** ** Computations: state, exceptions, and fuel for validator calls *)

Inductive exn :=
  | TypeError (message : string).

(** A computation returns, throws, or is left without the verdict of a
    validator call (see [call]). *)
Inductive outcome (A : Type) :=
  | Ret (a : A)
  | Throw (e : exn)
  | NoVerdict.
Arguments Ret {A} a.
Arguments Throw {A} e.
Arguments NoVerdict {A}.

Definition M (A : Type) : Type := World → outcome A * World.

Global Instance M_ret : MRet M := λ A a w, (Ret a, w).
Global Instance M_bind : MBind M := λ A B f m w,
  match m w with
  | (Ret a, w') => f a w'
  | (Throw e, w') => (Throw e, w')
  | (NoVerdict, w') => (NoVerdict, w')
  end.

Definition throw {A} (e : exn) : M A := λ w, (Throw e, w).
Definition gets {A} (f : World → A) : M A := λ w, (Ret (f w), w).
Definition modify (f : World → World) : M unit := λ w, (Ret tt, f w).

Definition new_record (r : gmap string value) : M loc := λ w,
  (Ret (length (records w)), with_records (records w ++ [r]) w).
Definition read_record (l : loc) : M (gmap string value) :=
  gets (λ w, records w !!! l).
Definition write_record (l : loc) (k : string) (v : value) : M unit :=
  modify (λ w, with_records (alter (insert k v) l (records w)) w).

Definition new_object (o : PropObj) : M loc := λ w,
  (Ret (length (objects w)), with_objects (objects w ++ [o]) w).
Definition read_object (l : loc) : M PropObj :=
  gets (λ w, objects w !!! l).
Definition update_object (l : loc) (f : PropObj → PropObj) : M unit :=
  modify (λ w, with_objects (alter f l (objects w)) w).

Definition new_space (N : Namespace) : M nat := λ w,
  (Ret (length (spaces w)), with_spaces (spaces w ++ [N]) w).
Definition read_space (n : nat) : M Namespace :=
  gets (λ w, spaces w !!! n).
Definition update_space (n : nat) (f : Namespace → Namespace) : M unit :=
  modify (λ w, with_spaces (alter f n (spaces w)) w).

(** Reading a property of a record: [undefined] when the key is missing. *)
Definition field (r : gmap string value) (k : string) : value :=
  default VUndef (r !! k).

(** ** Helpers imported from [./utils] *)

(** A string between double quotes, for the messages. *)
Definition dq : string := String (Ascii.ascii_of_nat 34) EmptyString.
Definition quoted (s : string) : string := dq ++ s ++ dq.

(** Modelled from the spec: [warn] of [./utils] (not among the sources), which
    4.1 describes as writing a diagnostic to the logging sink only when the
    process-wide silent flag is false. *)
Definition warn (msg : string) : M unit :=
  modify (λ w, if silent w then w else with_console (console w ++ [msg]) w).

(** Modelled from the spec: the predicate utilities of [./utils] (4.1), which
    classify the runtime shape of a value. *)
Definition isFunction (v : value) : bool :=
  match v with VFun _ => true | _ => false end.
Definition isArray (v : value) : bool :=
  match v with VArr _ => true | _ => false end.
Definition isPlainObject (v : value) : bool :=
  match v with VObj _ => true | _ => false end.
Definition isInteger (v : value) : bool :=
  match v with
  | VNum n d => bool_decide (n `mod` Z.pos d = 0)%Z
  | _ => false
  end.
Definition isSymbol (v : value) : bool :=
  match v with VSym _ => true | _ => false end.
Definition isUndefined (v : value) : bool :=
  match v with VUndef => true | _ => false end.

(** Modelled from the spec: [has] of [./utils], the own-property test behind
    the registry invariant of section 3 (a name that already exists). *)
Definition has (N : Namespace) (name : string) : bool :=
  bool_decide (is_Some (ns_props N !! name)).

(** Modelled from the spec: [isVueTypeDef] of [./utils], the duck-typed
    descriptor check of section 9: an object built by [toType] or
    [toValidableType], which is what carries a validator name. *)
Definition isVueTypeDef (t : option TypeField) : M bool :=
  match t with
  | Some (Obj l) => gets (λ w, bool_decide (is_Some (o_name (objects w !!! l))))
  | _ => mret false
  end.

(** Calling a validator function on an argument list.  [type.validator] is read
    from the store when the inherited closure runs, and the second conjunct is
    not evaluated when the first is false.  [None], no verdict: the call did
    not return within [fuel] nested calls (inherited validators can be made to
    call each other without end), or [type.validator] was no longer there to
    call (no operation modelled here removes a validator). *)
Fixpoint call (fuel : nat) (objs : list PropObj) (f : vfun) (args : list value)
  : option bool :=
  match fuel with
  | O => None
  | S fuel =>
    match f with
    | VUser p => Some (p args)
    | VStubTrue => Some true
    | VInherit type validator =>
      match o_validator (objs !!! type) with
      | Some base =>
        match call fuel objs base args with
        | Some true => call fuel objs validator args
        | r => r
        end
      | None => None
      end
    | VBound validator bound => call fuel objs validator (bound ++ args)
    end
  end.

Definition call_validator (fuel : nat) (f : vfun) (args : list value) : M bool :=
  λ w, match call fuel (objects w) f args with
       | Some b => (Ret b, w)
       | None => (NoVerdict, w)
       end.

(** *** The validation dispatcher *)

(** Modelled from the spec: the parts of [validateType] of [./utils] (4.5).
    First the wording of the diagnostic, which names the prop when known, the
    expected type and the value received. *)
Definition ctor_name (c : ctor) : string :=
  match c with
  | StringC => "string" | NumberC => "number" | BooleanC => "boolean"
  | FunctionC => "function" | ArrayC => "array" | ObjectC => "object"
  | SymbolC => "symbol"
  end.

(** Modelled from the spec: step 3 of [validateType] (4.5), the runtime type
    of the value against one constructor, or against any of a list. *)
Definition has_type (c : ctor) (v : value) : bool :=
  match c, v with
  | StringC, VStr _ | NumberC, VNum _ _ | BooleanC, VBool _
  | FunctionC, VFun _ | ArrayC, VArr _ | ObjectC, VObj _
  | SymbolC, VSym _ => true
  | _, _ => false
  end.

Definition type_matches (t : TypeField) (v : value) : bool :=
  match t with
  | Native c => has_type c v
  | NativeList cs => existsb (λ c, has_type c v) cs
  | Obj _ => false
  end.

Definition expected_type (t : option TypeField) : string :=
  match t with
  | Some (Native c) => ctor_name c
  | Some (NativeList cs) => String.concat " or " (map ctor_name cs)
  | _ => "any"
  end.

Fixpoint show (v : value) : string :=
  match v with
  | VUndef => "undefined"
  | VNull => "null"
  | VBool true => "true"
  | VBool false => "false"
  | VNum n 1 => pretty n
  | VNum n d => pretty n ++ "/" ++ pretty (Z.pos d)
  | VStr s => s
  | VSym _ => "Symbol()"
  | VFun _ => "function"
  | VArr items => String.concat "," (map show items)
  | VObj _ => "[object Object]"
  end.

Definition message (d : PropObj) (v : value) : string :=
  match o_name d with Some n => n ++ " - " | None => "" end
  ++ "value " ++ quoted (show v) ++ " should be of type "
  ++ quoted (expected_type (o_type d)).

Inductive VResult := RTrue | RFalse | RMsg (msg : string).

(** Modelled from the spec: step 1 of [validateType] (4.5): a native
    constructor (or a list of them) becomes the descriptor [{ type }]; an
    object of the store is taken as it is. *)
Definition normalize (t : TypeField) : M PropObj :=
  match t with
  | Obj l => read_object l
  | _ => mret (set_type (Some t) emptyObj)
  end.

(** Modelled from the spec: steps 2 to 4 of [validateType] (4.5), whether
    [v] passes the descriptor [d]. *)
Definition check (fuel : nat) (d : PropObj) (v : value) : M bool :=
  if negb (default false (o_required d)) && isUndefined v
  then mret true
  else
    let typed :=
      match o_type d with Some t => type_matches t v | None => true end in
    match o_validator d with
    | Some f => call_validator fuel f [v]
    | None => mret typed
    end.

(** Modelled from the spec: [validateType] of [./utils] (not among the
    sources), after the five steps of 4.5 and its note on the sink: a silent
    probe mutes the sink for the time of the check and puts the flag back. *)
Definition validateType (fuel : nat) (type : TypeField) (v : value)
    (silently : bool) : M VResult :=
  d ← normalize type;
  prior ← gets silent;
  (if silently then modify (with_silent true) else mret tt);;
  valid ← check fuel d v;
  modify (with_silent prior);;
  if valid : bool then mret RTrue
  else if silently then mret (RMsg (message d v))
  else warn (message d v);; mret RFalse.

(** *** The descriptor builder *)

(** Modelled from the spec: [toType] and [toValidableType] of [./utils] (4.2):
    the options object becomes a descriptor named [name] carrying [def] and
    [isRequired], and [validate] only in the validable variant.  The object is
    turned into the descriptor in place, so a caller who wants to keep its
    options intact has to pass a copy. *)
Definition toType (name : string) (obj : loc) : M loc :=
  update_object obj (set_chain name false);; mret obj.
Definition toValidableType (name : string) (obj : loc) : M loc :=
  update_object obj (set_chain name true);; mret obj.

(** Modelled from the spec: the parts of [def] (4.2 and section 3): the kinds
    whose default has to be a factory, what a factory produces, and the
    factory a bare array or object is wrapped into. *)
Definition factory_kind (d : PropObj) : bool :=
  match o_name d with
  | Some n => bool_decide (n = "array") || bool_decide (n = "object")
              || bool_decide (n = "shape")
  | None => false
  end.

Definition produced (v : value) : value :=
  match v with VFun r => r | _ => v end.
Definition wrapped (v : value) : value :=
  match v with VArr _ | VObj _ => VFun v | _ => v end.

(** Modelled from the spec: the chain method [def] (4.2).  [def(undefined)]
    deletes [default] without validating; any other value (for the factory
    kinds, what a supplied factory produces) is checked against the descriptor
    itself, stored on success (a bare array or object of a factory kind wrapped
    into a factory) and reported on failure, [default] staying as it was. *)
Definition def (fuel : nat) (this : loc) (v : value) : M loc :=
  match v with
  | VUndef => update_object this (set_default None);; mret this
  | _ =>
    d ← read_object this;
    let candidate := if factory_kind d then produced v else v in
    r ← validateType fuel (Obj this) candidate true;
    match r with
    | RTrue =>
      update_object this
        (set_default (Some (if factory_kind d then wrapped v else v)));;
      mret this
    | _ =>
      warn (default "" (o_name d) ++ " - invalid default value: "
            ++ quoted (show v));;
      mret this
    end
  end.

(** Modelled from the spec: the accessor [isRequired] (4.2). *)
Definition isRequired (this : loc) : M loc :=
  update_object this (set_required (Some true));; mret this.

(** Modelled from the spec: the chain method [validate] (4.2): it installs
    [fn] on a validable descriptor; elsewhere the method does not exist and the
    call is a programming error. *)
Definition validate (this : loc) (fn : vfun) : M loc :=
  d ← read_object this;
  if o_validable d
  then update_object this (set_validator (Some fn));; mret this
  else throw (TypeError "validate is not a function").

(** ** Native validators, imported from [./validators/native] *)

(** The object literal a factory passes to [toType]. *)
Definition options (t : option TypeField) (f : option vfun) : PropObj :=
  mkObj t None None f None false.

(** Modelled from the spec: the native factories (4.3), one per primitive
    kind, each a fresh descriptor around one predicate and without a default;
    [integer] and [symbol] bring their own validator and are the two kinds
    without [validate] (4.2). *)
Definition any : M loc :=
  new_object (options None None) ≫= toValidableType "any".
Definition func : M loc :=
  new_object (options (Some (Native FunctionC)) None) ≫= toValidableType "func".
Definition bool_ : M loc :=
  new_object (options (Some (Native BooleanC)) None) ≫= toValidableType "bool".
Definition string_ : M loc :=
  new_object (options (Some (Native StringC)) None) ≫= toValidableType "string".
Definition number : M loc :=
  new_object (options (Some (Native NumberC)) None) ≫= toValidableType "number".
Definition array : M loc :=
  new_object (options (Some (Native ArrayC)) None) ≫= toValidableType "array".
Definition object : M loc :=
  new_object (options (Some (Native ObjectC)) None) ≫= toValidableType "object".
Definition integer : M loc :=
  new_object (options (Some (Native NumberC))
                (Some (VUser (λ args, isInteger (default VUndef (head args))))))
  ≫= toType "integer".
Definition symbol : M loc :=
  new_object (options None
                (Some (VUser (λ args, isSymbol (default VUndef (head args))))))
  ≫= toType "symbol".

(** ** [src/index.ts] *)

(** The argument of [extend]: the named fields of [ExtendProps]; everything but
    [name], [validate] and [getter] is the rest object [opts]. *)
Record ExtendProps := mkProps {
  p_name : string;
  p_validate : option bool;
  p_getter : option bool;
  p_type : option TypeField;
  p_required : option bool;
  p_default : option value;
  p_validator : option vfun;
}.

(** [props: ExtendProps<any> | ExtendProps<any>[]] *)
Inductive ExtendArg :=
  | One (props : ExtendProps)
  | Several (props : list ExtendProps).

(** What the [sensibleDefaults] setter is given. *)
Inductive SetterArg :=
  | Flag (v : bool)
  | Config (v : loc).

(** The primitive kinds the class has a getter for. *)
Inductive kind :=
  | KAny | KFunc | KBool | KString | KNumber | KArray | KObject | KInteger
  | KSymbol.

(** [l.forEach(f)] *)
Fixpoint forEach {A B} (l : list A) (f : A → M B) : M unit :=
  match l with
  | [] => mret tt
  | x :: l => f x;; forEach l f
  end.

(** The loop of lines 118-127 on the rest object, after [delete opts.type]:
    [type], [required] and [default] of the base are copied when they are not
    [undefined]. *)
Definition inherit (type : PropObj) (opts : PropObj) : PropObj :=
  let opts := set_type None opts in
  let opts :=
    match o_type type with Some t => set_type (Some t) opts | None => opts end in
  let opts :=
    match o_required type with
    | Some r => set_required (Some r) opts
    | None => opts
    end in
  match o_default type with
  | None | Some VUndef => opts
  | Some d => set_default (Some d) opts
  end.

Section VueTypes.

(** What [typeDefaults()] of [./sensibles] returns (not among the sources). *)
Variable typeDefaults : gmap string value.

(** The own properties of the class as its body declares them, with the
    three every class constructor has. *)
Definition class_members : gmap string Member :=
  list_to_map ((λ k, (k, Builtin)) <$>
    [ "length"; "name"; "prototype"; "sensibleDefaults";
      "any"; "func"; "bool"; "string"; "number"; "array"; "object";
      "integer"; "symbol";
      "custom"; "oneOf"; "instanceOf"; "oneOfType"; "arrayOf"; "objectOf";
      "shape"; "extend"; "utils" ]).

(** [createTypes(defs = typeDefaults())]: the class it returns is a new
    namespace of the store. *)
Definition createTypes (defs : option loc) : M nat :=
  defs ← match defs with
         | Some defs => mret defs
         | None => new_record typeDefaults
         end;
  (* create a local copy *)
  defaults ← read_record defs ≫= new_record;
  new_space (mkNs defs defaults class_members).

(** [static get sensibleDefaults()] and [static set sensibleDefaults(v)] *)
Definition get_sensibleDefaults (VueTypes : nat) : M loc :=
  N ← read_space VueTypes; mret (ns_defaults N).

Definition set_sensibleDefaults (VueTypes : nat) (v : SetterArg) : M unit :=
  N ← read_space VueTypes;
  match v with
  | Flag false =>
    defaults ← new_record ∅;
    update_space VueTypes (set_defaults defaults)
  | Flag true =>
    defaults ← read_record (ns_defs N) ≫= new_record;
    update_space VueTypes (set_defaults defaults)
  | Config v =>
    defaults ← read_record v ≫= new_record;
    update_space VueTypes (set_defaults defaults)
  end.

(** [factory().def(defaults.key)] *)
Definition sensible (fuel : nat) (VueTypes : nat) (factory : M loc)
    (key : string) : M loc :=
  this ← factory;
  N ← read_space VueTypes;
  defaults ← read_record (ns_defaults N);
  def fuel this (field defaults key).

Definition get_any (VueTypes : nat) : M loc := any.
Definition get_func fuel VueTypes := sensible fuel VueTypes func "func".
Definition get_bool fuel VueTypes := sensible fuel VueTypes bool_ "bool".
Definition get_string fuel VueTypes := sensible fuel VueTypes string_ "string".
Definition get_number fuel VueTypes := sensible fuel VueTypes number "number".
Definition get_array fuel VueTypes := sensible fuel VueTypes array "array".
Definition get_object fuel VueTypes := sensible fuel VueTypes object "object".
Definition get_integer fuel VueTypes := sensible fuel VueTypes integer "integer".
Definition get_symbol (VueTypes : nat) : M loc := symbol.

(** The getter of a primitive kind: [VueTypes.any], [VueTypes.func], ... *)
Definition get (k : kind) (fuel : nat) (VueTypes : nat) : M loc :=
  match k with
  | KAny => get_any VueTypes
  | KFunc => get_func fuel VueTypes
  | KBool => get_bool fuel VueTypes
  | KString => get_string fuel VueTypes
  | KNumber => get_number fuel VueTypes
  | KArray => get_array fuel VueTypes
  | KObject => get_object fuel VueTypes
  | KInteger => get_integer fuel VueTypes
  | KSymbol => get_symbol VueTypes
  end.

(** [Object.defineProperty(this, name, descriptor)] on the class. *)
Definition defineProperty (name : string) (m : Member) (N : Namespace)
  : Namespace :=
  set_props (<[name := m]> (ns_props N)) N.

(** The message of the TypeError of line 106. *)
Definition already_defined (name : string) : string :=
  "[VueTypes error]: Type " ++ quoted name ++ " already defined".

(** [extend] on one spec (lines 103-173).  The rest object [opts] is local to
    the call until the functions of the property descriptor close over it:
    it is rewritten here as a value and enters the store at that point. *)
Definition extend_one (VueTypes : nat) (props : ExtendProps) : M nat :=
  let name := p_name props in
  let validate := default false (p_validate props) in
  let getter := default false (p_getter props) in
  let opts := mkObj (p_type props) (p_required props) (p_default props)
                (p_validator props) None false in
  N ← read_space VueTypes;
  if has N name then throw (TypeError (already_defined name))
  else
    let type := o_type opts in
    let validator := default VStubTrue (o_validator opts) in
    vueTypeDef ← isVueTypeDef type;
    '(opts, validate) ←
      match type with
      | Some (Obj base) =>
        if vueTypeDef : bool then
          (* we are using as base type a vue-type object *)
          type ← read_object base;
          (* inherit base types, required flag and default flag if set *)
          let opts := inherit type opts in
          (* we don't allow validate method on this kind of types *)
          let validate := false in
          if bool_decide (is_Some (o_validator type))
          then mret (set_validator (Some (VInherit base validator)) opts,
                     validate)
          else mret (opts, validate)
        else mret (opts, validate)
      | _ => mret (opts, validate)
      end;
    (* the rest object, as the closures of the property descriptor hold it *)
    stored ← new_object opts;
    let descriptor :=
      if getter then Getter name stored validate
      else Method name stored validate (o_validator opts) in
    update_space VueTypes (defineProperty name (Extended descriptor));;
    mret VueTypes.

(** [static extend(props)] *)
Definition extend (VueTypes : nat) (props : ExtendArg) : M nat :=
  match props with
  | Several props => forEach props (extend_one VueTypes);; mret VueTypes
  | One props => extend_one VueTypes props
  end.

(** What the property descriptor does when the property is read (getter form,
  lines 143-149) or called with [args] (method form, lines 155-168). *)
Definition invoke (descriptor : Installed) (args : list value) : M loc :=
  match descriptor with
  | Getter name opts validate =>
    typeOptions ← read_object opts ≫= new_object;
    if validate then toValidableType name typeOptions
    else toType name typeOptions
  | Method name opts validate validator =>
    typeOptions ← read_object opts ≫= new_object;
    ret ← (if validate then toValidableType name typeOptions
           else toType name typeOptions);
    match validator with
    | Some validator =>
      update_object ret (set_validator (Some (VBound validator args)));;
      mret ret
    | None => mret ret
    end
  end.

(** [utils.validate(value, type)] *)
Definition utils_validate (fuel : nat) (v : value) (type : TypeField)
  : M VResult :=
  validateType fuel type v true.

(** [utils.toType(name, obj, validable = false)] *)
Definition utils_toType (name : string) (obj : loc) (validable : bool) : M loc :=
  if validable then toValidableType name obj else toType name obj.

End VueTypes.

(** * Vocabulary of the properties *)

Local Open Scope nat_scope.

(** ** Validator calls and chain operations *)

(** A call returns [b] when some amount of fuel lets it do so. *)
Definition returns (objs : list PropObj) (f : vfun) (args : list value)
    (b : bool) : Prop :=
  ∃ fuel, call fuel objs f args = Some b.

Inductive chain_op :=
  | OpDef (fuel : nat) (v : value)
  | OpIsRequired
  | OpValidate (fn : vfun).

Definition apply_op (this : loc) (op : chain_op) : M loc :=
  match op with
  | OpDef fuel v => def fuel this v
  | OpIsRequired => isRequired this
  | OpValidate fn => validate this fn
  end.

(** The world after a series of chain operations on [this], each attempted
    whether or not the one before it succeeded. *)
Fixpoint chain (this : loc) (ops : list chain_op) (w : World) : World :=
  match ops with
  | [] => w
  | op :: ops => chain this ops (snd (apply_op this op w))
  end.

(** The factory of a primitive kind. *)
Definition native (k : kind) : M loc :=
  match k with
  | KAny => any | KFunc => func | KBool => bool_ | KString => string_
  | KNumber => number | KArray => array | KObject => object
  | KInteger => integer | KSymbol => symbol
  end.

(** The descriptor a native factory builds. *)
Definition native_obj (k : kind) : PropObj :=
  match k with
  | KAny => mkObj None None None None (Some "any") true
  | KFunc => mkObj (Some (Native FunctionC)) None None None (Some "func") true
  | KBool => mkObj (Some (Native BooleanC)) None None None (Some "bool") true
  | KString => mkObj (Some (Native StringC)) None None None (Some "string") true
  | KNumber => mkObj (Some (Native NumberC)) None None None (Some "number") true
  | KArray => mkObj (Some (Native ArrayC)) None None None (Some "array") true
  | KObject => mkObj (Some (Native ObjectC)) None None None (Some "object") true
  | KInteger =>
    mkObj (Some (Native NumberC)) None None
      (Some (VUser (λ args, isInteger (default VUndef (head args)))))
      (Some "integer") false
  | KSymbol =>
    mkObj None None None
      (Some (VUser (λ args, isSymbol (default VUndef (head args)))))
      (Some "symbol") false
  end.

(** ** The dispatcher and [def] as functions of the store *)

(** Step 1 of the dispatcher, without the monad. *)
Definition normal (objs : list PropObj) (type : TypeField) : PropObj :=
  match type with
  | Obj l => objs !!! l
  | _ => set_type (Some type) emptyObj
  end.

(** Steps 2 to 4 of the dispatcher, without the monad. *)
Definition passes (fuel : nat) (objs : list PropObj) (d : PropObj) (v : value)
  : option bool :=
  if negb (default false (o_required d)) && isUndefined v then Some true
  else
    match o_validator d with
    | Some f => call fuel objs f [v]
    | None =>
      Some (match o_type d with Some t => type_matches t v | None => true end)
    end.

(** The world after [warn(msg)]. *)
Definition logged (msg : string) (w : World) : World :=
  if silent w then w else with_console (console w ++ [msg]) w.

(** The diagnostic of a refused default. *)
Definition invalid_default (d : PropObj) (v : value) : string :=
  default "" (o_name d) ++ " - invalid default value: " ++ quoted (show v).

(** A chain operation rewrites the object it is called on and nothing else in
    the store; the rewrite never takes [required] away. *)
Definition keeps_required (f : PropObj → PropObj) : Prop :=
  ∀ o, o_required (f o) = o_required o ∨ o_required (f o) = Some true.

(** ** [extend] as a function of the store *)

(** The rest object and the [validate] flag as [extend] leaves them for the
    closures of the property descriptor. *)
Definition extended (objs : list PropObj) (props : ExtendProps)
  : PropObj * bool :=
  let opts := mkObj (p_type props) (p_required props) (p_default props)
                (p_validator props) None false in
  let validate := default false (p_validate props) in
  match p_type props with
  | Some (Obj base) =>
    let type := objs !!! base in
    if bool_decide (is_Some (o_name type)) then
      if bool_decide (is_Some (o_validator type))
      then (set_validator
              (Some (VInherit base (default VStubTrue (p_validator props))))
              (inherit type opts), false)
      else (inherit type opts, false)
    else (opts, validate)
  | _ => (opts, validate)
  end.

(** The property descriptor [extend] defines; its closures hold the rest
    object, which becomes the next object of the store. *)
Definition installed (objs : list PropObj) (props : ExtendProps) : Installed :=
  let '(opts, validate) := extended objs props in
  if default false (p_getter props)
  then Getter (p_name props) (length objs) validate
  else Method (p_name props) (length objs) validate (o_validator opts).

(** ** Getters and the defaults record *)

(** The key of the defaults record a getter reads, if it reads one. *)
Definition kind_key (k : kind) : option string :=
  match k with
  | KAny | KSymbol => None
  | KFunc => Some "func" | KBool => Some "bool" | KString => Some "string"
  | KNumber => Some "number" | KArray => Some "array"
  | KObject => Some "object" | KInteger => Some "integer"
  end.

(** The defaults record of a namespace, as the store holds it. *)
Definition defaults_of (w : World) (VueTypes : nat) : gmap string value :=
  records w !!! ns_defaults (spaces w !!! VueTypes).

(** What the setter stores: nothing for [false], the fields of [defs] as they
    are now for [true], the fields of the object it is given otherwise. *)
Definition assigned (w : World) (VueTypes : nat) (v : SetterArg)
  : gmap string value :=
  match v with
  | Flag false => ∅
  | Flag true => records w !!! ns_defs (spaces w !!! VueTypes)
  | Config v => records w !!! v
  end.

(** Whether [def] of a fresh descriptor of kind [k] takes the value [v]: the
    value has the type of the kind; an integer is a whole number; for an array
    or an object the value, or what the factory given produces, is one, or the
    factory produces nothing. *)
Definition suits (k : kind) (v : value) : bool :=
  match k with
  | KFunc => has_type FunctionC v
  | KBool => has_type BooleanC v
  | KString => has_type StringC v
  | KNumber => has_type NumberC v
  | KArray => has_type ArrayC (produced v) || isUndefined (produced v)
  | KObject => has_type ObjectC (produced v) || isUndefined (produced v)
  | KInteger => isInteger v
  | KAny | KSymbol => false
  end.

(** What [def] then stores. *)
Definition kept (k : kind) (v : value) : value :=
  match k with
  | KArray | KObject => wrapped v
  | _ => v
  end.

(** ** Property descriptors defined by [extend] *)

(** The captured [opts] and [validate]. *)
Definition opts_of (m : Installed) : loc :=
  match m with Getter _ opts _ | Method _ opts _ _ => opts end.

Definition validate_of (m : Installed) : bool :=
  match m with Getter _ _ validate | Method _ _ validate _ => validate end.

(** The descriptor a use of the member builds from the stored options. *)
Definition built (m : Installed) (stored : PropObj) (args : list value)
  : PropObj :=
  match m with
  | Getter name _ validate => set_chain name validate stored
  | Method name _ validate validator =>
    match validator with
    | Some validator =>
      set_validator (Some (VBound validator args))
        (set_chain name validate stored)
    | None => set_chain name validate stored
    end
  end.

(** The arguments the validators of a member are called with, before the
    value: those of the method call, none for a getter. *)
Definition passed (m : Installed) (args : list value) : list value :=
  match m with
  | Method _ _ _ _ => args
  | Getter _ _ _ => []
  end.

(** ** Programs over the store *)

(** What a program using the library can do to the store. *)
Inductive action :=
  | ANewRecord (r : gmap string value)
      (* build a config object *)
  | AWriteRecord (l : loc) (key : string) (v : value)
      (* assign a property of a config object or of a defaults record *)
  | ACreateTypes (defs : option loc)
  | ASetDefaults (VueTypes : nat) (v : SetterArg)
  | ANative (k : kind)
  | AGetter (k : kind) (fuel : nat) (VueTypes : nat)
  | AExtend (VueTypes : nat) (props : ExtendArg)
  | AInvoke (descriptor : Installed) (args : list value)
  | AChain (this : loc) (op : chain_op)
  | AValidateType (fuel : nat) (type : TypeField) (v : value) (silently : bool).

(** An object handed to the library has to exist. *)
Definition permitted (a : action) (w : World) : bool :=
  match a with
  | ACreateTypes (Some defs) => defs <? length (records w)
  | ASetDefaults _ (Config v) => v <? length (records w)
  | _ => true
  end.

Section Programs.

Variable typeDefaults : gmap string value.

Definition perform (a : action) (w : World) : World :=
  match a with
  | ANewRecord r => (new_record r w).2
  | AWriteRecord l key v => (write_record l key v w).2
  | ACreateTypes defs => (createTypes typeDefaults defs w).2
  | ASetDefaults VueTypes v => (set_sensibleDefaults VueTypes v w).2
  | ANative k => (native k w).2
  | AGetter k fuel VueTypes => (get k fuel VueTypes w).2
  | AExtend VueTypes props => (extend VueTypes props w).2
  | AInvoke descriptor args => (invoke descriptor args w).2
  | AChain this op => (apply_op this op w).2
  | AValidateType fuel type v silently =>
    (validateType fuel type v silently w).2
  end.

(** The world a program ends in, [None] when it hands over an object that
    does not exist. *)
Fixpoint history (program : list action) (w : World) : option World :=
  match program with
  | [] => Some w
  | a :: program =>
    if permitted a w then history program (perform a w) else None
  end.

End Programs.

(** The part of the world that says which record is whose. *)
Definition layout (w : World) : nat * list (loc * loc) :=
  (length (records w), (λ N, (ns_defs N, ns_defaults N)) <$> spaces w).

(** Every namespace has a defaults record of its own, allocated after the
    config object it was created from. *)
Definition separate (w : World) : Prop :=
  ∀ n N, spaces w !! n = Some N →
    ns_defs N < ns_defaults N < length (records w)
    ∧ ∀ n' N', spaces w !! n' = Some N' → n ≠ n' →
        ns_defaults N ≠ ns_defaults N'.

(** What a call gives back (the descriptor returned, with its fields) and what
    the sink holds afterwards. *)
Definition view (m : M loc) (w : World)
  : outcome (loc * PropObj) * list string :=
  match m w with
  | (Ret l, w') => (Ret (l, objects w' !!! l), console w')
  | (Throw e, w') => (Throw e, console w')
  | (NoVerdict, w') => (NoVerdict, console w')
  end.

(** Two worlds with the same objects and the same sink. *)
Definition same_objects (w w' : World) : Prop :=
  objects w' = objects w ∧ silent w' = silent w ∧ console w' = console w.

(** ** What the getters and [extend] build *)

(** The descriptor the getter of kind [k] builds when the defaults record is
    [r]: the one of the factory, with the value of the record as default when
    there is one and [def] takes it. *)
Definition got (k : kind) (r : gmap string value) : PropObj :=
  match kind_key k with
  | Some key =>
    let v := field r key in
    if isUndefined v then native_obj k
    else if suits k v then set_default (Some (kept k v)) (native_obj k)
    else native_obj k
  | None => native_obj k
  end.

(** The spec does not name a VueTypes descriptor as its [type]. *)
Definition plain_type (objs : list PropObj) (props : ExtendProps) : Prop :=
  match p_type props with
  | Some (Obj base) => o_name (objs !!! base) = None
  | _ => True
  end.

(** What [extend] on the namespace [VueTypes] may do to the store: append
    objects and define properties of that namespace that were not there. *)
Definition grown (VueTypes : nat) (w w' : World) : Prop :=
  records w' = records w
  ∧ console w' = console w
  ∧ silent w' = silent w
  ∧ (∃ added, objects w' = objects w ++ added)
  ∧ length (spaces w') = length (spaces w)
  ∧ (∀ n : nat, n ≠ VueTypes → spaces w' !!! n = spaces w !!! n)
  ∧ ns_defs (spaces w' !!! VueTypes) = ns_defs (spaces w !!! VueTypes)
  ∧ ns_defaults (spaces w' !!! VueTypes) = ns_defaults (spaces w !!! VueTypes).

(** The world after a sequence of calls of [extend] on one namespace, each
    with its own argument, whether they return or throw. *)
Definition extended_by (VueTypes : nat) (args : list ExtendArg) (w : World)
  : World :=
  foldl (λ w arg, (extend VueTypes arg w).2) w args.

(** ** Sample worlds *)

Definition example_defaults : gmap string value :=
  list_to_map
    [ ("func", VFun VUndef); ("bool", VBool true); ("string", VStr "");
      ("number", VNum 0 1); ("array", VFun (VArr [])); ("object", VFun (VObj []));
      ("integer", VNum 0 1) ].

(** The world after [createTypes()] alone. *)
Definition world1 : World := (createTypes example_defaults None world0).2.

(** A namespace built from a config whose [integer] default is 3/2. *)
Definition world_half : World :=
  ((new_record {[ "integer" := VNum 3 2 ]}
    ≫= λ cfg, createTypes example_defaults (Some cfg)) world0).2.

(** [minMax(min, max)] of [types/test/single.test.ts]:
    [toType('minmax', { type: Number,
                        validator(v) { return v > min && v < max } })]. *)
Definition between (min max : Z) : vfun :=
  VUser (λ args,
    match head args with
    | Some (VNum n d) => (min * Z.pos d <? n)%Z && (n <? max * Z.pos d)%Z
    | _ => false
    end).

Definition minMax (min max : Z) : M loc :=
  new_object (options (Some (Native NumberC)) (Some (between min max)))
  ≫= toType "minmax".

(** A world with a namespace (index 0) and the descriptor [minMax(10, 200)]
    (index 0 of the objects). *)
Definition world_base : World := (minMax 10 200 world1).2.

(** [{ name: 'score', type: <minMax(10, 200)>, validate: true, getter: true }] *)
Definition score_getter : ExtendProps :=
  mkProps "score" (Some true) (Some true) (Some (Obj 0)) None None None.

(** [{ name: 'score', type: <minMax(10, 200)> }], installed as a method. *)
Definition score_method : ExtendProps :=
  mkProps "score" None None (Some (Obj 0)) None None None.

(** The world after [extend({ name: 'score', type: minMax(10, 200) })] and
    the call [VueTypes.score(50)], whose descriptor is object 2. *)
Definition world_score : World :=
  (invoke (Method "score" 1 false (Some (VInherit 0 VStubTrue))) [VNum 50 1]
     (extend_one 0 score_method world_base).2).2.

(** The world after [extend({ name: 'score', type: minMax(10, 200) })]; the
    stored options are object 1. *)
Definition world_member : World := (extend_one 0 score_method world_base).2.

(** [{ name: 'tens', type: Number, validate: true,
       validator(min, v) { return v > min && v < 10 } }], a method whose
    validator takes the argument of the call before the value. *)
Definition tens : ExtendProps :=
  mkProps "tens" (Some true) None (Some (Native NumberC)) None None
    (Some (VUser (λ args,
       match args with
       | [VNum m d; VNum n e] =>
         (m * Z.pos e <? n * Z.pos d)%Z && (n <? 10 * Z.pos e)%Z
       | _ => false
       end))).

(** The world after two calls of [createTypes()]: namespaces 0 and 1. *)
Definition world2 : World := perform example_defaults (ACreateTypes None) world1.

(** * Properties *)

(** ** Unfolding computations *)

Ltac unfold_M :=
  repeat progress
    unfold mbind, M_bind, mret, M_ret, gets, modify, throw,
      new_object, read_object, update_object,
      new_record, read_record, write_record,
      new_space, read_space, update_space in *.

Lemma bind_ret {A B} (m : M A) (f : A → M B) w a w' :
  m w = (Ret a, w') → (m ≫= f) w = f a w'.
Proof. unfold mbind, M_bind. by intros ->. Qed.

Lemma with_silent_restore w b : with_silent (silent w) (with_silent b w) = w.
Proof. by destruct w. Qed.

(** ** Validator calls *)

Lemma call_unfold fuel objs f args :
  call (S fuel) objs f args =
  match f with
  | VUser p => Some (p args)
  | VStubTrue => Some true
  | VInherit type validator =>
    match o_validator (objs !!! type) with
    | Some base =>
      match call fuel objs base args with
      | Some true => call fuel objs validator args
      | r => r
      end
    | None => None
    end
  | VBound validator bound => call fuel objs validator (bound ++ args)
  end.
Proof. done. Qed.

Lemma call_S fuel objs f args b :
  call fuel objs f args = Some b → call (S fuel) objs f args = Some b.
Proof.
  revert f args b. induction fuel as [|fuel IH]; intros f args b; [done|].
  intros H. rewrite call_unfold in H. rewrite call_unfold.
  destruct f as [p| |type validator|validator bound]; try done.
  - destruct (o_validator (objs !!! type)) as [base|]; [|done].
    destruct (call fuel objs base args) as [[]|] eqn:Hbase; [| |done].
    + rewrite (IH _ _ _ Hbase). by apply IH.
    + by rewrite (IH _ _ _ Hbase).
  - by apply IH.
Qed.

Lemma call_mono (fuel fuel' : nat) objs f args b :
  fuel ≤ fuel' → call fuel objs f args = Some b →
  call fuel' objs f args = Some b.
Proof. induction 1; auto using call_S. Qed.

Lemma returns_fun objs f args b1 b2 :
  returns objs f args b1 → returns objs f args b2 → b1 = b2.
Proof.
  intros [n1 H1] [n2 H2].
  apply (call_mono _ (n1 `max` n2)) in H1; [|lia].
  apply (call_mono _ (n1 `max` n2)) in H2; [|lia]. congruence.
Qed.

(** ** Store lemmas *)

Lemma alter_new {A} (f : A → A) (l : list A) (x : A) :
  alter f (length l) (l ++ [x]) = l ++ [f x].
Proof.
  replace (length l) with (length l + 0) at 1 by lia.
  by rewrite alter_app_r.
Qed.

Lemma lookup_total_new `{!Inhabited A} (l : list A) (x : A) :
  (l ++ [x]) !!! length l = x.
Proof. by apply list_lookup_total_middle. Qed.

Lemma lookup_total_old `{!Inhabited A} (l : list A) (x : A) i :
  i < length l → (l ++ [x]) !!! i = l !!! i.
Proof. apply lookup_total_app_l. Qed.

Lemma native_run k w :
  native k w =
  (Ret (length (objects w)), with_objects (objects w ++ [native_obj k]) w).
Proof.
  destruct k; unfold native, any, func, bool_, string_, number, array, object,
    integer, symbol, toType, toValidableType; unfold_M; cbn;
    by rewrite alter_new.
Qed.

Lemma isRequired_run this w :
  isRequired this w =
  (Ret this, with_objects (alter (set_required (Some true)) this (objects w)) w).
Proof. done. Qed.

Lemma validate_run this fn w :
  validate this fn w =
  if o_validable (objects w !!! this)
  then (Ret this,
        with_objects (alter (set_validator (Some fn)) this (objects w)) w)
  else (Throw (TypeError "validate is not a function"), w).
Proof.
  unfold validate. unfold_M. by destruct (o_validable (objects w !!! this)).
Qed.

Lemma def_undefined_run fuel this w :
  def fuel this VUndef w =
  (Ret this, with_objects (alter (set_default None) this (objects w)) w).
Proof. done. Qed.

Lemma lookup_total_dangling (objs : list PropObj) (l : loc) :
  length objs ≤ l → objs !!! l = emptyObj.
Proof.
  intros H. rewrite list_lookup_total_alt.
  by rewrite (lookup_ge_None_2 objs l H).
Qed.

Lemma lookup_total_alter_this (f : PropObj → PropObj) (objs : list PropObj)
    (l : loc) :
  alter f l objs !!! l =
  if decide (l < length objs) then f (objs !!! l) else emptyObj.
Proof.
  case_decide as H.
  - by apply list_lookup_total_alter_eq.
  - apply lookup_total_dangling. rewrite length_alter. lia.
Qed.

Lemma default_after_delete (this : loc) (objs : list PropObj) :
  o_default (alter (set_default None) this objs !!! this) = None.
Proof. rewrite lookup_total_alter_this. by case_decide. Qed.

(** ** The dispatcher as a function of the store *)

Lemma normalize_run type w :
  normalize type w = (Ret (normal (objects w) type), w).
Proof. by destruct type. Qed.

Lemma check_run fuel d v w :
  check fuel d v w =
  (match passes fuel (objects w) d v with
   | Some b => Ret b
   | None => NoVerdict
   end, w).
Proof.
  unfold check, passes.
  destruct (negb (default false (o_required d)) && isUndefined v); [done|].
  destruct (o_validator d) as [f|]; [|done].
  unfold call_validator. by destruct (call fuel (objects w) f [v]).
Qed.

Lemma validateType_run fuel type v silently w :
  validateType fuel type v silently w =
  let d := normal (objects w) type in
  match passes fuel (objects w) d v with
  | Some true => (Ret RTrue, w)
  | Some false =>
    if silently then (Ret (RMsg (message d v)), w)
    else (Ret RFalse, logged (message d v) w)
  | None => (NoVerdict, if silently then with_silent true w else w)
  end.
Proof.
  unfold validateType.
  rewrite (bind_ret _ _ _ _ _ (normalize_run type w)).
  unfold_M. destruct silently; rewrite check_run; cbn;
    destruct (passes fuel (objects w) (normal (objects w) type) v) as [[]|];
    cbn; rewrite ?with_silent_restore; try done.
  all: by destruct w.
Qed.

Lemma def_run fuel this v w :
  v ≠ VUndef →
  def fuel this v w =
  let d := objects w !!! this in
  match passes fuel (objects w) d (if factory_kind d then produced v else v) with
  | Some true =>
    (Ret this,
     with_objects
       (alter (set_default (Some (if factory_kind d then wrapped v else v)))
          this (objects w)) w)
  | Some false => (Ret this, logged (invalid_default d v) w)
  | None => (NoVerdict, with_silent true w)
  end.
Proof.
  intros Hv. unfold def. destruct v; try done;
    unfold mbind at 1, M_bind at 1, read_object at 1, gets at 1;
    unfold mbind at 1, M_bind at 1; rewrite validateType_run; cbn;
    match goal with
    | |- context [passes ?a ?b ?c ?d] => destruct (passes a b c d) as [[]|]
    end; done.
Qed.

(** ** What a chain operation can change *)

Lemma apply_op_frame this op w :
  let w' := snd (apply_op this op w) in
  records w' = records w ∧ spaces w' = spaces w ∧
  ∃ f, objects w' = alter f this (objects w) ∧ keeps_required f.
Proof.
  assert (Hid : ∃ f, objects w = alter f this (objects w) ∧ keeps_required f).
  { exists id. split; [by rewrite list_alter_id|by left]. }
  destruct op as [fuel v| |fn]; cbn -[def].
  - assert (v = VUndef ∨ v ≠ VUndef) as [->|Hv] by (destruct v; auto).
    + rewrite def_undefined_run. cbn. repeat split.
      eexists. split; [done|]. by left.
    + rewrite (def_run _ _ _ _ Hv). cbn.
      destruct (passes _ _ _ _) as [[]|]; cbn.
      * repeat split. eexists. split; [done|]. by left.
      * unfold logged. by destruct (silent w).
      * done.
  - repeat split. eexists. split; [done|]. by right.
  - rewrite validate_run. destruct (o_validable _); cbn; [|done].
    repeat split. eexists. split; [done|]. by left.
Qed.

Lemma chain_frame this ops w :
  let w' := chain this ops w in
  records w' = records w ∧ spaces w' = spaces w ∧
  length (objects w') = length (objects w) ∧
  (∀ l, l ≠ this → objects w' !!! l = objects w !!! l) ∧
  (o_required (objects w !!! this) = Some true →
   o_required (objects w' !!! this) = Some true).
Proof.
  revert w. induction ops as [|op ops IH]; intros w; [done|].
  cbn [chain]. destruct (apply_op_frame this op w) as (Hr & Hs & f & Ho & Hf).
  destruct (IH (snd (apply_op this op w))) as (Hr' & Hs' & Hl' & Ho' & Hq').
  cbn zeta. split; [by rewrite Hr'|]. split; [by rewrite Hs'|].
  split; [by rewrite Hl', Ho, length_alter|]. split.
  - intros l Hl. rewrite (Ho' l Hl), Ho. by apply list_lookup_total_alter_ne.
  - intros Hq. apply Hq'. rewrite Ho, lookup_total_alter_this.
    case_decide as Hlt.
    + destruct (Hf (objects w !!! this)) as [-> | ->]; done.
    + by rewrite lookup_total_dangling in Hq by lia.
Qed.

(** ** The chain methods (spec 4.2) *)

(** C7. For every descriptor and every state of its [default] attribute,
    [def(undefined)] deletes the attribute and returns the descriptor: nothing
    else in the world changes, nothing is validated (no fuel is needed, no
    diagnostic is written), and [string().def('x').def(undefined)] has no
    [default] although [string().def('x')] had ['x']. *)
Theorem def_undefined_deletes_default fuel (this : loc) w :
  def fuel this VUndef w
  = (Ret this, with_objects (alter (set_default None) this (objects w)) w)
  ∧ o_default (objects (snd (def fuel this VUndef w)) !!! this) = None
  ∧ ∃ s w1 w2 w3,
      string_ w = (Ret s, w1)
      ∧ def fuel s (VStr "x") w1 = (Ret s, w2)
      ∧ o_default (objects w2 !!! s) = Some (VStr "x")
      ∧ def fuel s VUndef w2 = (Ret s, w3)
      ∧ o_default (objects w3 !!! s) = None.
Proof.
  split; [done|]. split.
  { rewrite def_undefined_run. apply default_after_delete. }
  pose proof (native_run KString w) as Hs. cbn [native] in Hs.
  eexists _, _, _, _. split; [exact Hs|].
  rewrite def_run by done. cbn [objects with_objects].
  rewrite lookup_total_new. cbn.
  split; [done|]. cbn [objects with_objects].
  rewrite alter_new, lookup_total_new. split; [done|].
  split; [done|]. apply default_after_delete.
Qed.

(** C8. For every native kind: the bare factory leaves [required] absent;
    whatever chain operations came before, reading [isRequired] returns the
    same descriptor with [required = true]; reading it again changes nothing;
    and no later chain operation ([def], [isRequired], [validate]) takes
    [required] back. *)
Theorem isRequired_sets_and_keeps_required k before after w :
  ∃ this w1,
    native k w = (Ret this, w1)
    ∧ o_required (objects w1 !!! this) = None
    ∧ let w2 := chain this before w1 in
      ∃ w3,
        isRequired this w2 = (Ret this, w3)
        ∧ o_required (objects w3 !!! this) = Some true
        ∧ isRequired this w3 = (Ret this, w3)
        ∧ o_required (objects (chain this after w3) !!! this) = Some true.
Proof.
  eexists _, _. split; [apply native_run|].
  cbn [objects with_objects]. rewrite lookup_total_new.
  split; [by destruct k|].
  set (w2 := chain _ before _).
  destruct (chain_frame (length (objects w)) before
              (with_objects (objects w ++ [native_obj k]) w))
    as (_ & _ & Hlen & _ & _).
  fold w2 in Hlen. cbn [objects with_objects] in Hlen.
  rewrite length_app in Hlen. cbn in Hlen.
  eexists. split; [apply isRequired_run|].
  assert (Hreq : o_required
            (objects (with_objects
               (alter (set_required (Some true)) (length (objects w))
                  (objects w2)) w2) !!! length (objects w)) = Some true).
  { cbn [objects with_objects]. rewrite lookup_total_alter_this.
    case_decide; [done|lia]. }
  split; [exact Hreq|]. split.
  - rewrite isRequired_run. f_equal. cbn [objects with_objects].
    rewrite list_alter_alter_eq. by destruct w2.
  - by apply chain_frame.
Qed.

(** ** The dispatcher (spec 4.5) and [utils.validate] *)

(** The check of a descriptor whose validator is absent or was written by the
    user needs one unit of fuel; only inherited validators nest. *)
Lemma check_returns fuel d v w :
  match o_validator d with
  | Some (VInherit _ _) | Some (VBound _ _) => False
  | _ => True
  end →
  ∃ b, check (S fuel) d v w = (Ret b, w).
Proof.
  intros Hd. rewrite check_run. unfold passes.
  destruct (negb (default false (o_required d)) && isUndefined v); [eauto|].
  destruct (o_validator d) as [[]|]; cbn; try done; eauto.
Qed.

Lemma passes_mono (fuel fuel' : nat) objs d v b :
  fuel ≤ fuel' → passes fuel objs d v = Some b → passes fuel' objs d v = Some b.
Proof.
  intros Hle. unfold passes.
  destruct (negb (default false (o_required d)) && isUndefined v); [done|].
  destruct (o_validator d) as [f|]; [|done]. by apply call_mono.
Qed.

(** C3. Whenever the check of [value] against the normalised [spec] comes
    out as [b] (given enough fuel for the validator calls, and the sink not
    muted from outside): the silent call returns [true] or the error string,
    never [false], and leaves the world, sink included, as it was; the loud
    call returns the boolean and, on failure, adds exactly one line to the
    sink; and [utils.validate(value, type)] is the silent call
    [validateType(type, value, true)]. *)
Theorem validateType_silent_and_loud (fuel0 : nat) type v w b :
  silent w = false →
  check fuel0 (normal (objects w) type) v w = (Ret b, w) →
  ∀ fuel : nat, fuel0 ≤ fuel →
  let msg := message (normal (objects w) type) v in
  validateType fuel type v true w
  = (Ret (if b then RTrue else RMsg msg), w)
  ∧ validateType fuel type v false w
    = (Ret (if b then RTrue else RFalse),
       if b then w else with_console (console w ++ [msg]) w)
  ∧ utils_validate fuel v type w = validateType fuel type v true w.
Proof.
  intros Hs Hc fuel Hfuel msg. rewrite check_run in Hc.
  unfold utils_validate. rewrite !validateType_run. cbn zeta. fold msg.
  destruct (passes fuel0 _ _ _) as [b'|] eqn:Hp; [|done].
  injection Hc as ->. rewrite (passes_mono _ _ _ _ _ _ Hfuel Hp).
  unfold logged. rewrite Hs. by destruct b.
Qed.

Lemma validateType_silent_and_loud_witness :
  validateType 1 (Native StringC) (VNum 10 1) true world0
  = (Ret (RMsg (message (normal [] (Native StringC)) (VNum 10 1))), world0)
  ∧ validateType 1 (Native StringC) (VNum 10 1) false world0
    = (Ret RFalse,
       with_console [message (normal [] (Native StringC)) (VNum 10 1)] world0)
  ∧ utils_validate 1 (VNum 10 1) (Native StringC) world0
    = validateType 1 (Native StringC) (VNum 10 1) true world0.
Proof.
  apply (validateType_silent_and_loud 0 (Native StringC) (VNum 10 1) world0
           false).
  - reflexivity.
  - reflexivity.
  - lia.
Defined.

(** ** [extend] as a function of the store *)

Lemma extend_one_run VueTypes props w :
  extend_one VueTypes props w =
  if has (spaces w !!! VueTypes) (p_name props)
  then (Throw (TypeError (already_defined (p_name props))), w)
  else
    (Ret VueTypes,
     with_spaces
       (alter (defineProperty (p_name props) (Extended (installed (objects w) props)))
          VueTypes (spaces w))
       (with_objects (objects w ++ [(extended (objects w) props).1]) w)).
Proof.
  unfold extend_one, installed, extended, isVueTypeDef. unfold_M.
  destruct (has (spaces w !!! VueTypes) (p_name props)); [done|].
  destruct (p_type props) as [[c|cs|base]|]; cbn; try done.
  destruct (bool_decide (is_Some (o_name (objects w !!! base)))); cbn;
    [|done].
  by destruct (bool_decide (is_Some (o_validator (objects w !!! base)))).
Qed.

Lemma forEach_cons {A B} (x : A) (l : list A) (f : A → M B) w :
  forEach (x :: l) f w =
  match f x w with
  | (Ret _, w') => forEach l f w'
  | (Throw e, w') => (Throw e, w')
  | (NoVerdict, w') => (NoVerdict, w')
  end.
Proof. done. Qed.

Lemma has_true N name : has N name = true ↔ is_Some (ns_props N !! name).
Proof. unfold has. apply bool_decide_eq_true. Qed.

Lemma has_false N name : has N name = false ↔ ns_props N !! name = None.
Proof.
  unfold has. rewrite bool_decide_eq_false. symmetry. apply eq_None_not_Some.
Qed.

(** A member that exists stays what it is through [extend] on any namespace,
    whether the call returns or throws. *)
Lemma extend_one_keeps VueTypes props w (n : nat) name m :
  ns_props (spaces w !!! n) !! name = Some m →
  ns_props (spaces (extend_one VueTypes props w).2 !!! n) !! name = Some m.
Proof.
  intros Hm. rewrite extend_one_run.
  destruct (has _ _) eqn:Hhas; [done|]. cbn.
  rewrite list_lookup_total_alter. case_decide as Hn; [|done].
  destruct Hn as [-> _]. cbn. apply has_false in Hhas.
  rewrite lookup_insert_ne; [done|]. congruence.
Qed.

Lemma forEach_extend_keeps VueTypes specs w (n : nat) name m :
  ns_props (spaces w !!! n) !! name = Some m →
  ns_props (spaces (forEach specs (extend_one VueTypes) w).2 !!! n) !! name
  = Some m.
Proof.
  revert w. induction specs as [|p specs IH]; intros w Hm; [done|].
  rewrite forEach_cons.
  pose proof (extend_one_keeps VueTypes p w n name m Hm) as Hp.
  destruct (extend_one VueTypes p w) as [[]?]; cbn in *; auto.
Qed.

Lemma extend_keeps VueTypes arg w (n : nat) name m :
  ns_props (spaces w !!! n) !! name = Some m →
  ns_props (spaces (extend VueTypes arg w).2 !!! n) !! name = Some m.
Proof.
  intros Hm. destruct arg as [p|specs]; [by apply extend_one_keeps|].
  pose proof (forEach_extend_keeps VueTypes specs w n name m Hm) as Hp.
  unfold extend. unfold_M.
  by destruct (forEach specs (extend_one VueTypes) w) as [[]?].
Qed.

Lemma forEach_extend_collides VueTypes specs w name :
  is_Some (ns_props (spaces w !!! VueTypes) !! name) →
  name ∈ p_name <$> specs →
  ∃ n w', n ∈ p_name <$> specs ∧
    forEach specs (extend_one VueTypes) w
    = (Throw (TypeError (already_defined n)), w').
Proof.
  revert w. induction specs as [|p specs IH]; intros w [m Hm] Hin.
  { by apply elem_of_nil in Hin. }
  rewrite forEach_cons.
  pose proof (extend_one_keeps VueTypes p w VueTypes name m Hm) as Hp.
  rewrite extend_one_run in *.
  destruct (has (spaces w !!! VueTypes) (p_name p)) eqn:Hhas.
  { eexists _, _. split; [|done]. rewrite fmap_cons. apply list_elem_of_here. }
  rewrite fmap_cons in Hin. apply elem_of_cons in Hin as [->|Hin].
  { apply has_false in Hhas. congruence. }
  destruct (IH _ (ex_intro _ m Hp) Hin) as (n & w' & Hn & Hrun).
  exists n, w'. split; [|done]. rewrite fmap_cons. by apply list_elem_of_further.
Qed.

(** ** [extend]: collisions *)

(** C2. When [name] is already an own property of the namespace, [extend] on
    a spec of that name throws the TypeError that names it and changes
    nothing; [extend] on an array holding such a spec throws the TypeError of
    a collision; and whatever [extend] is given and however it ends, the
    existing member is still the one that was there. *)
Theorem extend_never_overrides (VueTypes : nat) w name member :
  ns_props (spaces w !!! VueTypes) !! name = Some member →
  (∀ props, p_name props = name →
     extend VueTypes (One props) w
     = (Throw (TypeError (already_defined name)), w))
  ∧ (∀ specs, name ∈ p_name <$> specs →
       ∃ n w', n ∈ p_name <$> specs ∧
         extend VueTypes (Several specs) w
         = (Throw (TypeError (already_defined n)), w'))
  ∧ (∀ arg,
       ns_props (spaces (extend VueTypes arg w).2 !!! VueTypes) !! name
       = Some member).
Proof.
  intros Hm. split; [|split].
  - intros props <-. cbn. rewrite extend_one_run.
    by rewrite (proj2 (has_true _ _) (ex_intro _ member Hm)).
  - intros specs Hin.
    destruct (forEach_extend_collides VueTypes specs w name
                (ex_intro _ member Hm) Hin) as (n & w' & Hn & Hrun).
    exists n, w'. split; [done|]. unfold extend. unfold_M. by rewrite Hrun.
  - intros arg. by apply extend_keeps.
Qed.

Lemma extend_never_overrides_witness :
  (∀ props, p_name props = "string" →
     extend 0 (One props) world1
     = (Throw (TypeError (already_defined "string")), world1))
  ∧ (∀ specs, "string" ∈ p_name <$> specs →
       ∃ n w', n ∈ p_name <$> specs ∧
         extend 0 (Several specs) world1
         = (Throw (TypeError (already_defined n)), w'))
  ∧ (∀ arg,
       ns_props (spaces (extend 0 arg world1).2 !!! 0) !! "string"
       = Some Builtin).
Proof.
  apply (extend_never_overrides 0 world1 "string" Builtin).
  vm_compute. reflexivity.
Defined.

(** ** The convenience getters and the defaults record *)

Lemma getter_run k fuel VueTypes w :
  get k fuel VueTypes w =
  let w1 := with_objects (objects w ++ [native_obj k]) w in
  match kind_key k with
  | Some key =>
    def fuel (length (objects w)) (field (defaults_of w VueTypes) key) w1
  | None => (Ret (length (objects w)), w1)
  end.
Proof.
  destruct k; cbn [get kind_key];
    unfold get_any, get_func, get_bool, get_string, get_number, get_array,
      get_object, get_integer, get_symbol, sensible;
    first [ apply (native_run KAny) | apply (native_run KSymbol)
          | erewrite bind_ret;
            [|first [ apply (native_run KFunc) | apply (native_run KBool)
                    | apply (native_run KString) | apply (native_run KNumber)
                    | apply (native_run KArray) | apply (native_run KObject)
                    | apply (native_run KInteger) ] ];
            done ].
Qed.

Lemma set_sensibleDefaults_run VueTypes v w :
  set_sensibleDefaults VueTypes v w =
  (Ret tt,
   with_spaces (alter (set_defaults (length (records w))) VueTypes (spaces w))
     (with_records (records w ++ [assigned w VueTypes v]) w)).
Proof. by destruct v as [[]|v]. Qed.

Lemma createTypes_run typeDefaults defs w :
  createTypes typeDefaults defs w =
  let w0 := match defs with
            | Some _ => w
            | None => with_records (records w ++ [typeDefaults]) w
            end in
  let d := match defs with Some d => d | None => length (records w) end in
  (Ret (length (spaces w)),
   with_spaces (spaces w ++ [mkNs d (length (records w0)) class_members])
     (with_records (records w0 ++ [records w0 !!! d]) w0)).
Proof. by destruct defs. Qed.

Lemma lookup_total_alter_space (f : Namespace → Namespace)
    (l : list Namespace) (n : nat) :
  n < length l → alter f n l !!! n = f (l !!! n).
Proof. apply list_lookup_total_alter_eq. Qed.

Lemma field_empty key : field ∅ key = VUndef.
Proof. unfold field. by rewrite lookup_empty. Qed.

(** C10. For a namespace of the store: assigning [false] to
    [sensibleDefaults] makes the defaults record a new, empty record, after
    which every convenience getter builds a descriptor without a default and
    reports nothing; assigning [true] makes it a new record with the fields of
    the [defs] object of [createTypes] (right after [createTypes(defs)]: the
    fields [defs] was passed with); assigning an object makes it a new record
    with the fields of that object; the getter returns the record just
    assigned; no record that existed is written, and [defs] stays the object
    it was. *)
Theorem sensibleDefaults_assignment (VueTypes : nat) w v :
  VueTypes < length (spaces w) →
  let fresh := length (records w) in
  let w' := (set_sensibleDefaults VueTypes v w).2 in
  set_sensibleDefaults VueTypes v w = (Ret tt, w')
  ∧ records w' = records w ++ [assigned w VueTypes v]
  ∧ ns_defs (spaces w' !!! VueTypes) = ns_defs (spaces w !!! VueTypes)
  ∧ get_sensibleDefaults VueTypes w' = (Ret fresh, w')
  ∧ defaults_of w' VueTypes
    = match v with
      | Flag false => ∅
      | Flag true => records w !!! ns_defs (spaces w !!! VueTypes)
      | Config v => records w !!! v
      end
  ∧ (v = Flag false →
     ∀ k fuel, ∃ this w'',
       get k fuel VueTypes w' = (Ret this, w'')
       ∧ o_default (objects w'' !!! this) = None
       ∧ console w'' = console w)
  ∧ (∀ typeDefaults defs w0,
       match defs with Some defs => defs < length (records w0) | None => True end →
       ∃ N w1,
         createTypes typeDefaults defs w0 = (Ret N, w1)
         ∧ defaults_of (set_sensibleDefaults N (Flag true) w1).2 N
           = match defs with
             | Some defs => records w0 !!! defs
             | None => typeDefaults
             end).
Proof.
  intros Hn fresh w'. subst w'. rewrite set_sensibleDefaults_run.
  cbn [snd]. split; [done|]. split; [done|].
  assert (Hd : ∀ (n : nat) w v, n < length (spaces w) →
            defaults_of
              (with_spaces
                 (alter (set_defaults (length (records w))) n (spaces w))
                 (with_records (records w ++ [assigned w n v]) w)) n
            = assigned w n v).
  { intros n u x Hlt. unfold defaults_of.
    cbn [spaces records with_spaces with_records].
    rewrite lookup_total_alter_space by done. cbn [ns_defaults set_defaults].
    apply lookup_total_new. }
  split.
  { cbn [spaces with_spaces]. by rewrite lookup_total_alter_space. }
  split.
  { unfold get_sensibleDefaults. unfold_M.
    cbn [spaces with_spaces]. by rewrite lookup_total_alter_space. }
  split; [by rewrite Hd; destruct v as [[]|]|]. split.
  - intros -> k fuel. rewrite getter_run. cbn zeta. rewrite Hd by done.
    cbn [assigned]. destruct (kind_key k) as [key|].
    + rewrite field_empty, def_undefined_run. eexists _, _. split; [done|].
      split; [apply default_after_delete|done].
    + eexists _, _. split; [done|]. cbn [objects with_objects].
      rewrite lookup_total_new. split; [by destruct k|done].
  - intros td defs w0 Hp. rewrite createTypes_run. cbn zeta.
    eexists _, _. split; [done|]. rewrite set_sensibleDefaults_run.
    cbn [snd]. rewrite Hd.
    2:{ cbn. rewrite length_app. cbn. lia. }
    cbn [assigned spaces records with_spaces with_records].
    rewrite lookup_total_new. cbn [ns_defs].
    destruct defs as [d|].
    + apply lookup_total_old. cbn [records with_records]. done.
    + cbn [records with_records]. rewrite lookup_total_old.
      * apply lookup_total_new.
      * rewrite length_app. cbn. lia.
Qed.

Lemma def_fresh_native k fuel v w :
  v ≠ VUndef → kind_key k ≠ None →
  let this := length (objects w) in
  let w1 := with_objects (objects w ++ [native_obj k]) w in
  def (S fuel) this v w1 =
  if suits k v
  then (Ret this,
        with_objects (objects w ++ [set_default (Some (kept k v)) (native_obj k)])
          w)
  else (Ret this, logged (invalid_default (native_obj k) v) w1).
Proof.
  intros Hv Hk this w1. subst this w1. rewrite def_run by done.
  cbn [objects with_objects]. rewrite lookup_total_new.
  destruct k; try done; destruct v as [| | | | | |r| |]; try done;
    unfold passes; cbn; rewrite ?alter_new; try done;
    try (destruct r; cbn; rewrite ?alter_new; done);
    by destruct (bool_decide _); cbn; rewrite ?alter_new.
Qed.

(** C5, as the code has it.  The getter of a primitive kind returns a
    descriptor that did not exist before and leaves the existing ones alone.
    For [func], [bool], [string], [number], [array], [object] and [integer]
    its default is the value the defaults record holds now for that kind
    when [def] takes that value (a bare array or object being kept inside a
    factory); when the record holds nothing for the kind, or a value [def]
    refuses, the descriptor has no default, and the refusal is reported once.
    [any] and [symbol] never read the record.  The factory alone builds a
    descriptor without a default. *)
Theorem getter_applies_accepted_default k fuel (VueTypes : nat) w :
  let this := length (objects w) in
  ∃ w0 w',
    native k w = (Ret this, w0)
    ∧ o_default (objects w0 !!! this) = None
    ∧ get k (S fuel) VueTypes w = (Ret this, w')
    ∧ (∀ l, l < length (objects w) → objects w' !!! l = objects w !!! l)
    ∧ match kind_key k with
      | None => w' = w0
      | Some key =>
        let v := field (defaults_of w VueTypes) key in
        if isUndefined v then
          o_default (objects w' !!! this) = None ∧ console w' = console w
        else if suits k v then
          o_default (objects w' !!! this) = Some (kept k v)
          ∧ console w' = console w
        else
          o_default (objects w' !!! this) = None
          ∧ console w' = console (logged (invalid_default (native_obj k) v) w)
      end.
Proof.
  intros this. subst this. rewrite native_run, getter_run. cbn zeta.
  exists (with_objects (objects w ++ [native_obj k]) w).
  cbn [objects with_objects]. rewrite lookup_total_new.
  destruct (kind_key k) as [key|] eqn:Hk.
  2:{ eexists. split; [done|]. split; [by destruct k|]. split; [done|].
      split; [|done]. intros l Hl. cbn. by apply lookup_total_old. }
  set (v := field _ key).
  assert (v = VUndef ∨ v ≠ VUndef) as [Hv|Hv] by (destruct v; auto).
  - rewrite Hv, def_undefined_run. eexists. split; [done|].
    split; [by destruct k|]. split; [done|]. cbn [objects with_objects].
    rewrite alter_new. split.
    + intros l Hl. by apply lookup_total_old.
    + cbn. by rewrite lookup_total_new.
  - rewrite def_fresh_native by congruence.
    assert (Hu : isUndefined v = false) by (by destruct v).
    rewrite Hu. destruct (suits k v); eexists; (split; [done|]);
      (split; [by destruct k|]); (split; [done|]); split.
    + intros l Hl. by apply lookup_total_old.
    + cbn. by rewrite lookup_total_new.
    + intros l Hl. unfold logged. cbn.
      destruct (silent w); by apply lookup_total_old.
    + unfold logged. cbn [silent with_objects].
      destruct (silent w); cbn; rewrite lookup_total_new; by destruct k.
Qed.

(** C5, as stated, fails: the record holds 3/2 for [integer], and the
    descriptor the [integer] getter returns has no default at all. *)
Lemma integer_getter_refuses_stored_default :
  field (defaults_of world_half 0) "integer" = VNum 3 2
  ∧ ∃ this w',
      get KInteger 1 0 world_half = (Ret this, w')
      ∧ o_default (objects w' !!! this) = None
      ∧ o_default (objects w' !!! this)
        ≠ Some (field (defaults_of world_half 0) "integer").
Proof.
  split; [vm_compute; reflexivity|].
  eexists _, _. split; [vm_compute; reflexivity|].
  split; [vm_compute; reflexivity|]. vm_compute. discriminate.
Qed.

(** ** Using a member installed by [extend] *)

Lemma invoke_run m args w :
  invoke m args w =
  (Ret (length (objects w)),
   with_objects (objects w ++ [built m (objects w !!! opts_of m) args]) w).
Proof.
  unfold invoke, toType, toValidableType. unfold_M.
  destruct m as [nm opts validate|nm opts validate validator]; cbn.
  - destruct validate; cbn; by rewrite alter_new.
  - destruct validate, validator; cbn; rewrite !alter_new;
      rewrite ?list_alter_alter_eq, ?alter_new; try done.
    all: replace (length (objects w)) with (length (objects w) + 0) at 2 by lia;
      by rewrite alter_app_r.
Qed.

Lemma returns_inherit objs base own args b :
  returns objs (VInherit base own) args b ↔
  ∃ g, o_validator (objs !!! base) = Some g ∧
    (returns objs g args false ∧ b = false
     ∨ returns objs g args true ∧ returns objs own args b).
Proof.
  split.
  - intros [[|fuel] H]; [done|]. rewrite call_unfold in H.
    destruct (o_validator (objs !!! base)) as [g|]; [|done].
    exists g. split; [done|].
    destruct (call fuel objs g args) as [[]|] eqn:Hg; [| |done].
    + right. split; by exists fuel.
    + left. injection H as <-. split; [by exists fuel|done].
  - intros (g & Hg & [[[n Hn] ->]|[[n Hn] [n' Hn']]]).
    + exists (S n). by rewrite call_unfold, Hg, Hn.
    + exists (S (n `max` n')). rewrite call_unfold, Hg.
      rewrite (call_mono n (n `max` n') _ _ _ _ ltac:(lia) Hn).
      apply (call_mono n'); [lia|done].
Qed.

Lemma returns_bound objs f bound args b :
  returns objs (VBound f bound) args b ↔ returns objs f (bound ++ args) b.
Proof.
  split.
  - intros [[|fuel] H]; [done|]. by exists fuel.
  - intros [fuel H]. by exists (S fuel).
Qed.

(** ** [extend] on a spec whose [type] is a descriptor *)

Lemma extended_inherits objs props base :
  p_type props = Some (Obj base) →
  is_Some (o_name (objs !!! base)) →
  let opts := mkObj (p_type props) (p_required props) (p_default props)
                (p_validator props) None false in
  extended objs props =
  (if bool_decide (is_Some (o_validator (objs !!! base)))
   then set_validator
          (Some (VInherit base (default VStubTrue (p_validator props))))
          (inherit (objs !!! base) opts)
   else inherit (objs !!! base) opts, false).
Proof.
  intros Ht Hn. unfold extended. rewrite Ht.
  rewrite (bool_decide_eq_true_2 _ Hn). by destruct (bool_decide _).
Qed.

Lemma extend_one_installs (VueTypes : nat) props w :
  VueTypes < length (spaces w) →
  ns_props (spaces w !!! VueTypes) !! p_name props = None →
  let m := installed (objects w) props in
  let w1 := (extend_one VueTypes props w).2 in
  extend_one VueTypes props w = (Ret VueTypes, w1)
  ∧ ns_props (spaces w1 !!! VueTypes) !! p_name props = Some (Extended m)
  ∧ opts_of m = length (objects w)
  ∧ objects w1 = objects w ++ [(extended (objects w) props).1].
Proof.
  intros Hn Hfree m w1. subst m w1. rewrite extend_one_run.
  rewrite (proj2 (has_false _ _) Hfree). cbn [snd].
  split; [done|]. split; [|split; [|done]].
  - cbn [spaces with_spaces]. rewrite lookup_total_alter_space by done.
    cbn. apply lookup_insert_eq.
  - unfold installed. destruct (extended _ _).
    by destruct (default false (p_getter props)).
Qed.

Lemma installed_validate objs props base :
  p_type props = Some (Obj base) →
  is_Some (o_name (objs !!! base)) →
  validate_of (installed objs props) = false.
Proof.
  intros Ht Hn. unfold installed.
  rewrite (extended_inherits _ _ _ Ht Hn).
  by destruct (default false (p_getter props)).
Qed.

Lemma built_validable m stored args :
  o_validable (built m stored args) = validate_of m.
Proof. destruct m as [|??? []]; done. Qed.

(** C6. When the [type] of the spec is a VueTypes descriptor and the name is
    free, [extend] defines a property whose every use, in any later world and
    whatever [validate] the spec asked for, returns a descriptor without the
    [validate] method: calling it is an error and installs nothing. *)
Theorem inherited_member_has_no_validate (VueTypes : nat) props base w :
  VueTypes < length (spaces w) →
  ns_props (spaces w !!! VueTypes) !! p_name props = None →
  p_type props = Some (Obj base) →
  is_Some (o_name (objects w !!! base)) →
  ∃ w1 m,
    extend_one VueTypes props w = (Ret VueTypes, w1)
    ∧ ns_props (spaces w1 !!! VueTypes) !! p_name props = Some (Extended m)
    ∧ validate_of m = false
    ∧ ∀ w2 args fn, ∃ this w3,
        invoke m args w2 = (Ret this, w3)
        ∧ o_validable (objects w3 !!! this) = false
        ∧ validate this fn w3
          = (Throw (TypeError "validate is not a function"), w3).
Proof.
  intros Hn Hfree Ht Hbase.
  destruct (extend_one_installs VueTypes props w Hn Hfree)
    as (Hrun & Hm & Hopts & _).
  pose proof (installed_validate _ _ _ Ht Hbase) as Hv.
  eexists _, _. split; [exact Hrun|]. split; [exact Hm|]. split; [exact Hv|].
  intros w2 args fn. eexists _, _. split; [apply invoke_run|].
  cbn [objects with_objects]. rewrite lookup_total_new, built_validable, Hv.
  split; [done|]. rewrite validate_run. cbn [objects with_objects].
  by rewrite lookup_total_new, built_validable, Hv.
Qed.

Lemma inherited_member_has_no_validate_witness :
  ∃ w1 m,
    extend_one 0 score_getter world_base = (Ret 0, w1)
    ∧ ns_props (spaces w1 !!! 0) !! p_name score_getter = Some (Extended m)
    ∧ validate_of m = false
    ∧ ∀ w2 args fn, ∃ this w3,
        invoke m args w2 = (Ret this, w3)
        ∧ o_validable (objects w3 !!! this) = false
        ∧ validate this fn w3
          = (Throw (TypeError "validate is not a function"), w3).
Proof.
  apply (inherited_member_has_no_validate 0 score_getter 0 world_base).
  - vm_compute. lia.
  - vm_compute. reflexivity.
  - reflexivity.
  - vm_compute. eexists. reflexivity.
Defined.

Lemma inherit_fields type opts :
  let d := inherit type opts in
  o_type d = o_type type
  ∧ o_required d
    = match o_required type with Some r => Some r | None => o_required opts end
  ∧ o_default d
    = match o_default type with
      | None | Some VUndef => o_default opts
      | Some v => Some v
      end
  ∧ o_validator d = o_validator opts.
Proof.
  unfold inherit.
  destruct (o_type type), (o_required type), (o_default type) as [[]|]; done.
Qed.

Lemma inherit_verdicts (now : option vfun) (P : vfun → bool → Prop)
    (R : bool → Prop) :
  ((∃ g, now = Some g ∧ (P g false ∧ true = false ∨ P g true ∧ R true)) ↔
   (∃ g, now = Some g ∧ P g true) ∧ R true)
  ∧ ((∃ g, now = Some g ∧ (P g false ∧ false = false ∨ P g true ∧ R false)) ↔
     ∃ g, now = Some g ∧ (P g false ∨ P g true ∧ R false)).
Proof.
  split; split.
  - intros (g & Hg & [[_ [=]]|[? ?]]). eauto.
  - intros [(g & Hg & ?) ?]. eauto.
  - intros (g & Hg & [[? _]|[? ?]]); eauto.
  - intros (g & Hg & [?|[? ?]]); eauto.
Qed.

(** The descriptors of a property [extend] defines from a base descriptor,
    in full: the validator composed for a base that carries one calls the
    validator the base has at that moment and then the one of the spec
    ([stubTrue] if there is none), both on the arguments of the method call
    followed by the value. *)
Lemma extend_composes_validators (VueTypes : nat) props base w :
  VueTypes < length (spaces w) →
  ns_props (spaces w !!! VueTypes) !! p_name props = None →
  p_type props = Some (Obj base) →
  is_Some (o_name (objects w !!! base)) →
  let type := objects w !!! base in
  let own := default VStubTrue (p_validator props) in
  ∃ w1 m,
    extend_one VueTypes props w = (Ret VueTypes, w1)
    ∧ ns_props (spaces w1 !!! VueTypes) !! p_name props = Some (Extended m)
    ∧ ∀ args, ∃ this w2,
        invoke m args w1 = (Ret this, w2)
        ∧ let d := objects w2 !!! this in
          o_type d = o_type type
          ∧ o_required d
            = match o_required type with
              | Some r => Some r
              | None => p_required props
              end
          ∧ o_default d
            = match o_default type with
              | None | Some VUndef => p_default props
              | Some v => Some v
              end
          ∧ match o_validator type with
            | Some _ =>
              ∃ f, o_validator d = Some f ∧
                ∀ objs v,
                  let now := o_validator (objs !!! base) in
                  let given := passed m args ++ [v] in
                  (returns objs f [v] true ↔
                   (∃ g, now = Some g ∧ returns objs g given true)
                   ∧ returns objs own given true)
                  ∧ (returns objs f [v] false ↔
                     ∃ g, now = Some g ∧
                       (returns objs g given false
                        ∨ returns objs g given true
                          ∧ returns objs own given false))
            | None =>
              o_validator d
              = match m with
                | Method _ _ _ _ => (λ f, VBound f args) <$> p_validator props
                | Getter _ _ _ => p_validator props
                end
            end.
Proof.
  intros Hn Hfree Ht Hbase type own.
  destruct (extend_one_installs VueTypes props w Hn Hfree)
    as (Hrun & Hm & Hopts & Hobjs).
  eexists _, _. split; [exact Hrun|]. split; [exact Hm|].
  intros args. eexists _, _. split; [apply invoke_run|].
  cbn [objects with_objects]. rewrite lookup_total_new, Hopts, Hobjs.
  rewrite lookup_total_new.
  unfold installed. rewrite (extended_inherits _ _ _ Ht Hbase). fold type own.
  cbn [fst].
  destruct (inherit_fields type
              (mkObj (p_type props) (p_required props) (p_default props)
                 (p_validator props) None false)) as (Hty & Hreq & Hdef & Hval).
  cbn [o_required o_default o_validator] in Hreq, Hdef, Hval.
  destruct (o_validator type) as [g0|] eqn:Hg0.
  - rewrite bool_decide_eq_true_2 by eauto.
    destruct (default false (p_getter props)); cbn -[inherit returns].
    + repeat split; try done. eexists. split; [done|]. intros objs v.
      rewrite !returns_inherit.
      apply (inherit_verdicts (o_validator (objs !!! base))
               (λ g b, returns objs g [v] b) (λ b, returns objs own [v] b)).
    + repeat split; try done. eexists. split; [done|]. intros objs v.
      rewrite !returns_bound, !returns_inherit.
      apply (inherit_verdicts (o_validator (objs !!! base))
               (λ g b, returns objs g (args ++ [v]) b)
               (λ b, returns objs own (args ++ [v]) b)).
  - rewrite bool_decide_eq_false_2 by (intros [? [=]]).
    destruct (default false (p_getter props)); cbn -[inherit].
    + by rewrite Hval.
    + rewrite Hval. by destruct (p_validator props).
Qed.

(** C1, as the code has it.  When the [type] of the spec is a VueTypes
    descriptor and the name is free, every use of the property [extend]
    defines returns a descriptor with the [type], [required] and [default] of
    the base wherever the base defines them ([required] and [default] of the
    spec otherwise, and no [type]).  When the base carries a validator and
    the property is read through a getter, or called without arguments, the
    descriptor carries a validator that accepts a value exactly when the
    validator of the base and the one of the spec ([stubTrue] if there is
    none) both accept it, and rejects it exactly when the first rejects it, or
    accepts it and the second rejects it.  When the base carries no
    validator, the validator of the descriptor is the one of the spec, bound
    to the arguments of the call in method form. *)
Theorem extend_inherits_from_descriptor (VueTypes : nat) props base w :
  VueTypes < length (spaces w) →
  ns_props (spaces w !!! VueTypes) !! p_name props = None →
  p_type props = Some (Obj base) →
  is_Some (o_name (objects w !!! base)) →
  let type := objects w !!! base in
  let own := default VStubTrue (p_validator props) in
  ∃ w1 m,
    extend_one VueTypes props w = (Ret VueTypes, w1)
    ∧ ns_props (spaces w1 !!! VueTypes) !! p_name props = Some (Extended m)
    ∧ ∀ args, ∃ this w2,
        invoke m args w1 = (Ret this, w2)
        ∧ let d := objects w2 !!! this in
          o_type d = o_type type
          ∧ o_required d
            = match o_required type with
              | Some r => Some r
              | None => p_required props
              end
          ∧ o_default d
            = match o_default type with
              | None | Some VUndef => p_default props
              | Some v => Some v
              end
          ∧ match o_validator type with
            | Some _ =>
              ∃ f, o_validator d = Some f ∧
                (passed m args = [] →
                 ∀ objs v,
                   let now := o_validator (objs !!! base) in
                   (returns objs f [v] true ↔
                    (∃ g, now = Some g ∧ returns objs g [v] true)
                    ∧ returns objs own [v] true)
                   ∧ (returns objs f [v] false ↔
                      ∃ g, now = Some g ∧
                        (returns objs g [v] false
                         ∨ returns objs g [v] true
                           ∧ returns objs own [v] false)))
            | None =>
              o_validator d
              = match m with
                | Method _ _ _ _ => (λ f, VBound f args) <$> p_validator props
                | Getter _ _ _ => p_validator props
                end
            end.
Proof.
  intros Hn Hfree Ht Hbase type own.
  destruct (extend_composes_validators VueTypes props base w Hn Hfree Ht Hbase)
    as (w1 & m & Hrun & Hm & Huse).
  exists w1, m. split; [exact Hrun|]. split; [exact Hm|].
  intros args. destruct (Huse args) as (this & w2 & Hinv & Hty & Hreq & Hdef & Hv).
  exists this, w2. split; [exact Hinv|]. split; [exact Hty|].
  split; [exact Hreq|]. split; [exact Hdef|].
  fold type in Hv. destruct (o_validator type) as [g0|]; [|exact Hv].
  destruct Hv as (f & Hf & Hcalls). exists f. split; [exact Hf|].
  intros Hnone objs v. specialize (Hcalls objs v).
  cbn zeta in Hcalls. rewrite Hnone in Hcalls. exact Hcalls.
Qed.

Lemma extend_inherits_from_descriptor_witness :
  ∃ w1 m,
    extend_one 0 score_method world_base = (Ret 0, w1)
    ∧ ns_props (spaces w1 !!! 0) !! p_name score_method = Some (Extended m).
Proof.
  destruct (extend_inherits_from_descriptor 0 score_method 0 world_base)
    as (w1 & m & Hrun & Hm & _).
  - vm_compute. lia.
  - vm_compute. reflexivity.
  - reflexivity.
  - vm_compute. eexists. reflexivity.
  - exists w1, m. split; [exact Hrun|exact Hm].
Defined.

(** C1, as stated, fails for a member in method form called with an argument:
    the validator of the descriptor [VueTypes.score(50)] accepts 5, which the
    validator of the base descriptor [minMax(10, 200)] rejects; the base
    validator was shown the argument 50 of the call. *)
Lemma method_member_validates_its_argument :
  ns_props (spaces (extend_one 0 score_method world_base).2 !!! 0) !! "score"
  = Some (Extended (Method "score" 1 false (Some (VInherit 0 VStubTrue))))
  ∧ invoke (Method "score" 1 false (Some (VInherit 0 VStubTrue))) [VNum 50 1]
      (extend_one 0 score_method world_base).2
    = (Ret 2, world_score)
  ∧ ∃ f,
      o_validator (objects world_score !!! 2) = Some f
      ∧ o_validator (objects world_score !!! 0) = Some (between 10 200)
      ∧ returns (objects world_score) f [VNum 5 1] true
      ∧ returns (objects world_score) (between 10 200) [VNum 5 1] false
      ∧ ¬ (returns (objects world_score) f [VNum 5 1] true ↔
           returns (objects world_score) (between 10 200) [VNum 5 1] true
           ∧ returns (objects world_score) VStubTrue [VNum 5 1] true).
Proof.
  split; [vm_compute; reflexivity|]. split; [vm_compute; reflexivity|].
  eexists. split; [vm_compute; reflexivity|].
  split; [vm_compute; reflexivity|].
  assert (Hf : returns (objects world_score)
                 (VBound (VInherit 0 VStubTrue) [VNum 50 1]) [VNum 5 1] true).
  { exists 3. vm_compute. reflexivity. }
  assert (Hg : returns (objects world_score) (between 10 200) [VNum 5 1] false).
  { exists 1. vm_compute. reflexivity. }
  split; [exact Hf|]. split; [exact Hg|].
  intros [Hacc _]. destruct (Hacc Hf) as [Hg' _].
  by pose proof (returns_fun _ _ _ _ _ Hg Hg').
Qed.

(** ** Descriptors returned by one member are independent *)

(** C9. For the property descriptor [extend] defines, in getter or in method
    form, whose stored options are an object of the store: a use of the
    property returns a new object, built from the fields of the stored
    options, which it leaves as they were; whatever chain operations are then
    applied to the descriptor returned, the stored options keep their fields,
    and a later use returns yet another object, built from the same fields,
    without touching the first. *)
Theorem member_use_builds_fresh_descriptor m w args ops args' :
  opts_of m < length (objects w) →
  let stored := opts_of m in
  let options := objects w !!! stored in
  ∃ this w1,
    invoke m args w = (Ret this, w1)
    ∧ this = length (objects w)
    ∧ objects w1 !!! this = built m options args
    ∧ objects w1 !!! stored = options
    ∧ let w2 := chain this ops w1 in
      objects w2 !!! stored = options
      ∧ ∃ this' w3,
          invoke m args' w2 = (Ret this', w3)
          ∧ this' ≠ this ∧ this' ≠ stored
          ∧ objects w3 !!! this' = built m options args'
          ∧ objects w3 !!! this = objects w2 !!! this
          ∧ objects w3 !!! stored = options.
Proof.
  intros Hstored stored options.
  eexists _, _. split; [apply invoke_run|].
  split; [done|]. cbn [objects with_objects]. fold stored options.
  split; [by rewrite lookup_total_new|].
  split; [by rewrite lookup_total_old|].
  set (w1 := with_objects _ w). set (this := length (objects w)).
  destruct (chain_frame this ops w1) as (_ & _ & Hlen & Hother & _).
  set (w2 := chain this ops w1) in *.
  assert (Hlen1 : length (objects w1) = S this).
  { subst w1. cbn. rewrite length_app. cbn. lia. }
  assert (Hsame : objects w2 !!! stored = options).
  { rewrite Hother by (subst this stored; lia). subst w1. cbn.
    by rewrite lookup_total_old. }
  split; [exact Hsame|].
  eexists _, _. split; [apply invoke_run|].
  rewrite Hlen, Hlen1. split; [lia|]. split; [subst this stored; lia|].
  cbn [objects with_objects]. fold stored.
  replace (S this) with (length (objects w2)) by lia.
  rewrite lookup_total_new, Hsame.
  split; [done|]. split; by rewrite lookup_total_old by (subst stored; lia).
Qed.

Lemma member_use_builds_fresh_descriptor_witness :
  ns_props (spaces world_member !!! 0) !! "score"
  = Some (Extended (Method "score" 1 false (Some (VInherit 0 VStubTrue))))
  ∧ ∃ this w1,
      invoke (Method "score" 1 false (Some (VInherit 0 VStubTrue))) [VNum 50 1]
        world_member = (Ret this, w1)
      ∧ this = 2
      ∧ objects (chain this [OpIsRequired; OpDef 2 (VNum 50 1)] w1) !!! 1
        = objects world_member !!! 1.
Proof.
  split; [vm_compute; reflexivity|].
  destruct (member_use_builds_fresh_descriptor
              (Method "score" 1 false (Some (VInherit 0 VStubTrue)))
              world_member [VNum 50 1] [OpIsRequired; OpDef 2 (VNum 50 1)] [])
    as (this & w1 & Hrun & Hthis & _ & _ & Hkeep & _).
  - vm_compute. lia.
  - exists this, w1. split; [exact Hrun|]. split; [exact Hthis|exact Hkeep].
Defined.

(** ** Programs keep the records of namespaces apart *)

Lemma separate_layout w w' :
  layout w' = layout w → separate w → separate w'.
Proof.
  unfold layout. intros [= Hlen Hsp] Hw n N HN.
  assert (Hget : ∀ n N, spaces w' !! n = Some N →
            ∃ M, spaces w !! n = Some M
                 ∧ ns_defs M = ns_defs N ∧ ns_defaults M = ns_defaults N).
  { intros i Ni Hi.
    assert (((λ N, (ns_defs N, ns_defaults N)) <$> spaces w') !! i
            = Some (ns_defs Ni, ns_defaults Ni)) as Hi'
      by (by rewrite list_lookup_fmap, Hi).
    rewrite Hsp, list_lookup_fmap in Hi'.
    destruct (spaces w !! i) as [M|]; [|done].
    injection Hi' as ? ?. eauto. }
  destruct (Hget n N HN) as (M & HM & Hd & Hf).
  destruct (Hw n M HM) as [Hb Hne]. rewrite Hlen, <- Hd, <- Hf.
  split; [done|]. intros n' N' HN' Hnn'.
  destruct (Hget n' N' HN') as (M' & HM' & _ & Hf'). rewrite <- Hf'. eauto.
Qed.

Lemma separate_grow w r :
  separate w → separate (with_records (records w ++ [r]) w).
Proof.
  intros Hw n N HN. destruct (Hw n N HN) as [Hb Hne].
  split; [|done]. cbn. rewrite length_app. cbn. lia.
Qed.

Lemma layout_same w w' :
  records w' = records w → spaces w' = spaces w → layout w' = layout w.
Proof. unfold layout. by intros -> ->. Qed.

Lemma layout_defineProperty name m (n : nat) w w' :
  length (records w') = length (records w) →
  spaces w' = alter (defineProperty name m) n (spaces w) →
  layout w' = layout w.
Proof.
  unfold layout. intros -> ->. f_equal.
  rewrite (list_fmap_alter _ _ id); [by rewrite list_alter_id|].
  by apply Forall_forall.
Qed.

Lemma extend_one_layout VueTypes props w :
  layout (extend_one VueTypes props w).2 = layout w.
Proof.
  rewrite extend_one_run. destruct (has _ _); [done|].
  by eapply layout_defineProperty.
Qed.

Lemma forEach_extend_layout VueTypes specs w :
  layout (forEach specs (extend_one VueTypes) w).2 = layout w.
Proof.
  revert w. induction specs as [|p specs IH]; intros w; [done|].
  rewrite forEach_cons. pose proof (extend_one_layout VueTypes p w) as Hp.
  destruct (extend_one VueTypes p w) as [[]w']; cbn in *; [|done..].
  by rewrite IH.
Qed.

Lemma extend_layout VueTypes arg w :
  layout (extend VueTypes arg w).2 = layout w.
Proof.
  destruct arg as [p|specs]; [apply extend_one_layout|].
  pose proof (forEach_extend_layout VueTypes specs w) as Hp.
  unfold extend. unfold_M.
  by destruct (forEach specs (extend_one VueTypes) w) as [[]?].
Qed.

Lemma apply_op_layout this op w : layout (apply_op this op w).2 = layout w.
Proof.
  destruct (apply_op_frame this op w) as (Hr & Hs & _). by apply layout_same.
Qed.

Lemma getter_layout k fuel VueTypes w :
  layout (get k fuel VueTypes w).2 = layout w.
Proof.
  rewrite getter_run. cbn zeta. destruct (kind_key k) as [key|]; [|done].
  set (w1 := with_objects _ w). set (v := field _ key).
  pose proof (apply_op_layout (length (objects w)) (OpDef fuel v) w1) as H.
  cbn [apply_op] in H. by rewrite H.
Qed.

Lemma invoke_layout m args w : layout (invoke m args w).2 = layout w.
Proof. by rewrite invoke_run. Qed.

Lemma validateType_layout fuel type v silently w :
  layout (validateType fuel type v silently w).2 = layout w.
Proof.
  rewrite validateType_run. cbn zeta.
  destruct (passes _ _ _ _) as [[]|], silently; try done.
  unfold logged. by destruct (silent w).
Qed.

Lemma lookup_alter_set_defaults (l : list Namespace) (n i : nat) fresh N :
  alter (set_defaults fresh) n l !! i = Some N →
  ∃ M, l !! i = Some M ∧ ns_defs N = ns_defs M
       ∧ (n = i ∧ ns_defaults N = fresh ∨ n ≠ i ∧ ns_defaults N = ns_defaults M).
Proof.
  rewrite list_lookup_alter. case_decide as Hni.
  - subst i. destruct (l !! n) as [M|]; [|done]. intros [= <-].
    exists M. split; [done|]. split; [done|]. by left.
  - intros HN. exists N. split; [done|]. split; [done|]. by right.
Qed.

Section ProgramsKeepRecordsApart.

Variable typeDefaults : gmap string value.

Lemma perform_separate a w :
  permitted a w = true → separate w → separate (perform typeDefaults a w).
Proof.
  intros Hp Hw. destruct a as [r|l key v|defs|n v|k|k fuel n|n arg|m args
                               |this op|fuel type v silently]; cbn [perform].
  - by apply separate_grow.
  - eapply separate_layout; [|done]. unfold layout. cbn.
    by rewrite length_alter.
  - rewrite createTypes_run. cbn zeta. cbn [snd].
    set (w0 := match defs with Some _ => w | None => _ end).
    set (d := match defs with Some d => d | None => _ end).
    assert (separate w0 ∧ spaces w0 = spaces w ∧ d < length (records w0))
      as (Hs0 & Hsp0 & Hd).
    { subst w0 d. destruct defs as [d|].
      - split; [done|]. split; [done|]. by apply Nat.ltb_lt.
      - split; [by apply separate_grow|]. split; [done|].
        cbn. rewrite length_app. cbn. lia. }
    intros i N. cbn [spaces records with_spaces with_records].
    rewrite length_app. cbn [length].
    rewrite lookup_snoc_Some. intros [[Hi HN]|[-> <-]].
    + rewrite <- Hsp0 in HN. destruct (Hs0 i N HN) as [Hb Hne].
      split; [lia|]. intros i' N'. rewrite lookup_snoc_Some.
      intros [[Hi' HN']|[-> <-]] Hii'.
      * rewrite <- Hsp0 in HN'. eauto.
      * cbn. lia.
    + cbn. split; [lia|]. intros i' N'. rewrite lookup_snoc_Some.
      intros [[Hi' HN']|[-> <-]] Hii'; [|done].
      rewrite <- Hsp0 in HN'. destruct (Hs0 i' N' HN') as [Hb _]. lia.
  - rewrite set_sensibleDefaults_run. cbn [snd].
    intros i N. cbn [spaces records with_spaces with_records].
    rewrite length_app. cbn [length].
    intros (M & HM & Hd & Hf)%lookup_alter_set_defaults.
    destruct (Hw i M HM) as [Hb Hne]. split; [lia|].
    intros i' N' (M' & HM' & _ & Hf')%lookup_alter_set_defaults Hii'.
    destruct (Hw i' M' HM') as [Hb' _]. specialize (Hne i' M' HM' Hii').
    lia.
  - eapply separate_layout; [|done]. by rewrite native_run.
  - eapply separate_layout; [|done]. apply getter_layout.
  - eapply separate_layout; [|done]. apply extend_layout.
  - eapply separate_layout; [|done]. apply invoke_layout.
  - eapply separate_layout; [|done]. apply apply_op_layout.
  - eapply separate_layout; [|done]. apply validateType_layout.
Qed.

Lemma history_separate program w w' :
  separate w → history typeDefaults program w = Some w' → separate w'.
Proof.
  revert w. induction program as [|a program IH]; intros w Hw; cbn.
  - by intros [= <-].
  - destruct (permitted a w) eqn:Hp; [|done].
    apply IH. by apply perform_separate.
Qed.

End ProgramsKeepRecordsApart.

Lemma separate_world0 : separate world0.
Proof. intros n N HN. by destruct n. Qed.

(** ** Namespaces do not share their defaults *)

Lemma same_objects_intro w w' :
  objects w' = objects w → silent w' = silent w → console w' = console w →
  same_objects w w'.
Proof. done. Qed.

Lemma def_same_objects fuel this v w w' :
  same_objects w w' →
  (def fuel this v w').1 = (def fuel this v w).1
  ∧ same_objects (def fuel this v w).2 (def fuel this v w').2.
Proof.
  intros (Ho & Hs & Hc).
  assert (v = VUndef ∨ v ≠ VUndef) as [->|Hv] by (destruct v; auto).
  - rewrite !def_undefined_run. cbn. rewrite Ho. split; [done|].
    by apply same_objects_intro.
  - rewrite !def_run by done. cbn zeta. rewrite Ho.
    destruct (passes _ _ _ _) as [[]|]; cbn;
      (split; [done|]); try by apply same_objects_intro.
    unfold logged. rewrite Hs.
    destruct (silent w) eqn:Hsw; apply same_objects_intro; cbn; congruence.
Qed.

Lemma getter_same_objects k fuel (n : nat) w w' :
  same_objects w w' → defaults_of w' n = defaults_of w n →
  view (get k fuel n) w' = view (get k fuel n) w.
Proof.
  intros (Ho & Hs & Hc) Hd. unfold view. rewrite !getter_run. cbn zeta.
  rewrite Hd, Ho. destruct (kind_key k) as [key|].
  - set (v := field _ key). set (this := length (objects w)).
    destruct (def_same_objects fuel this v
                (with_objects (objects w ++ [native_obj k]) w)
                (with_objects (objects w ++ [native_obj k]) w'))
      as (Hres & Ho' & _ & Hc'); [done|].
    destruct (def fuel this v (with_objects _ w)) as [r1 w1],
             (def fuel this v (with_objects _ w')) as [r2 w2].
    cbn in Hres, Ho', Hc'. subst r2. rewrite Ho', Hc'. by destruct r1.
  - cbn. by rewrite Hc.
Qed.

(** C4. In the world any program leaves behind, two distinct namespaces have
    distinct defaults records, and the record of a namespace is not the
    config object it was created from.  So writing a property of the record of
    [N1], or assigning [N1.sensibleDefaults], changes neither what any
    convenience getter of [N2] returns nor what it reports; writing a property
    of the config object [N2] was created from leaves the record of [N2], and
    so its getters, as they were; and [createTypes] gives the new namespace a
    record that did not exist before, holding the fields of the config it is
    given (those of [typeDefaults()] when it is given none). *)
Theorem namespaces_keep_their_own_defaults typeDefaults program w
    (N1 N2 : nat) :
  history typeDefaults program world0 = Some w →
  N1 < length (spaces w) → N2 < length (spaces w) → N1 ≠ N2 →
  let record1 := ns_defaults (spaces w !!! N1) in
  let record2 := ns_defaults (spaces w !!! N2) in
  let config2 := ns_defs (spaces w !!! N2) in
  record1 ≠ record2 ∧ config2 ≠ record2
  ∧ (∀ key v k fuel,
       view (get k fuel N2) (write_record record1 key v w).2
       = view (get k fuel N2) w)
  ∧ (∀ v k fuel,
       view (get k fuel N2) (set_sensibleDefaults N1 v w).2
       = view (get k fuel N2) w)
  ∧ (∀ key v,
       defaults_of (write_record config2 key v w).2 N2 = defaults_of w N2
       ∧ ∀ k fuel,
           view (get k fuel N2) (write_record config2 key v w).2
           = view (get k fuel N2) w)
  ∧ (∀ defs, permitted (ACreateTypes defs) w = true →
       ∃ w',
         createTypes typeDefaults defs w = (Ret (length (spaces w)), w')
         ∧ ns_defs (spaces w' !!! length (spaces w))
           = default (length (records w)) defs
         ∧ length (records w) ≤ ns_defaults (spaces w' !!! length (spaces w))
         ∧ defaults_of w' (length (spaces w))
           = match defs with
             | Some defs => records w !!! defs
             | None => typeDefaults
             end).
Proof.
  intros Hw H1 H2 Hne record1 record2 config2.
  apply (history_separate _ _ _ _ separate_world0) in Hw.
  destruct (Hw N1 _ (list_lookup_lookup_total_lt _ _ H1)) as [Hb1 Hne1].
  destruct (Hw N2 _ (list_lookup_lookup_total_lt _ _ H2)) as [Hb2 _].
  specialize (Hne1 N2 _ (list_lookup_lookup_total_lt _ _ H2) Hne).
  fold record1 in Hb1, Hne1. fold record2 config2 in Hb2. fold record2 in Hne1.
  split; [done|]. split; [lia|]. split; [|split; [|split]].
  - intros key v k fuel. apply getter_same_objects; [done|].
    unfold defaults_of. cbn. fold record2.
    by rewrite list_lookup_total_alter_ne.
  - intros v k fuel. apply getter_same_objects.
    { by rewrite set_sensibleDefaults_run. }
    rewrite set_sensibleDefaults_run. unfold defaults_of.
    cbn [snd spaces records with_spaces with_records].
    rewrite list_lookup_total_alter_ne by done. fold record2.
    apply lookup_total_old. lia.
  - intros key v.
    assert (Hd : defaults_of (write_record config2 key v w).2 N2
                 = defaults_of w N2).
    { unfold defaults_of. cbn. fold record2.
      rewrite list_lookup_total_alter_ne; [done|lia]. }
    split; [exact Hd|]. intros k fuel. by apply getter_same_objects.
  - intros defs Hp. rewrite createTypes_run. cbn zeta. eexists.
    split; [done|]. unfold defaults_of.
    cbn [spaces records with_spaces with_records].
    rewrite lookup_total_new. cbn [ns_defaults].
    destruct defs as [d|]; cbn [records with_records].
    + split; [done|]. split; [done|]. by rewrite lookup_total_new.
    + split; [done|]. split; [rewrite length_app; lia|].
      by rewrite lookup_total_new, lookup_total_new.
Qed.

Lemma namespaces_keep_their_own_defaults_witness :
  view (get KString 1 1) (write_record 1 "string" (VStr "x") world2).2
  = view (get KString 1 1) world2.
Proof.
  destruct (namespaces_keep_their_own_defaults example_defaults
              [ACreateTypes None; ACreateTypes None] world2 0 1)
    as (_ & _ & Hwrite & _).
  - vm_compute. reflexivity.
  - vm_compute. lia.
  - vm_compute. lia.
  - lia.
  - exact (Hwrite "string" (VStr "x") KString 1).
Defined.

Lemma sensibleDefaults_assignment_witness :
  ∃ this w'',
    get KString 1 0 (set_sensibleDefaults 0 (Flag false) world1).2
    = (Ret this, w'')
    ∧ o_default (objects w'' !!! this) = None
    ∧ console w'' = console world1.
Proof.
  destruct (sensibleDefaults_assignment 0 world1 (Flag false))
    as (_ & _ & _ & _ & _ & Hget & _).
  - vm_compute. lia.
  - exact (Hget eq_refl KString 1).
Defined.

(** After [createTypes(cfg)], a later [cfg.string = 'b'] does not reach the
    defaults record, but [sensibleDefaults = true] copies [cfg] as it is
    then. *)
Example restore_copies_the_config_as_it_is_now :
  let program : M unit :=
    cfg ← new_record {[ "string" := VStr "a" ]};
    VueTypes ← createTypes example_defaults (Some cfg);
    write_record cfg "string" (VStr "b") in
  let w := (program world0).2 in
  field (defaults_of w 0) "string" = VStr "a"
  ∧ field (defaults_of (set_sensibleDefaults 0 (Flag true) w).2 0) "string"
    = VStr "b".
Proof. split; vm_compute; reflexivity. Qed.

(** * Further properties of [src/index.ts] *)

(** ** The getters of the primitive kinds *)

Lemma get_builds k fuel (VueTypes : nat) w :
  get k (S fuel) VueTypes w =
  (Ret (length (objects w)),
   let d := got k (defaults_of w VueTypes) in
   let w' := with_objects (objects w ++ [d]) w in
   match kind_key k with
   | Some key =>
     let v := field (defaults_of w VueTypes) key in
     if isUndefined v || suits k v then w'
     else logged (invalid_default (native_obj k) v)
            (with_objects (objects w ++ [native_obj k]) w)
   | None => w'
   end).
Proof.
  rewrite getter_run. unfold got. cbn zeta.
  destruct (kind_key k) as [key|] eqn:Hk; [|done].
  set (v := field _ key).
  assert (v = VUndef ∨ v ≠ VUndef) as [Hv|Hv] by (destruct v; auto).
  - rewrite Hv, def_undefined_run. cbn. rewrite alter_new.
    by destruct k.
  - rewrite def_fresh_native by congruence.
    assert (Hu : isUndefined v = false) by (by destruct v).
    rewrite Hu. cbn. clearbody v. destruct (suits k v); reflexivity.
Qed.

Lemma get_objects k fuel (VueTypes : nat) w :
  (get k (S fuel) VueTypes w).1 = Ret (length (objects w))
  ∧ objects (get k (S fuel) VueTypes w).2
    = objects w ++ [got k (defaults_of w VueTypes)]
  ∧ records (get k (S fuel) VueTypes w).2 = records w
  ∧ spaces (get k (S fuel) VueTypes w).2 = spaces w.
Proof.
  rewrite get_builds. cbn zeta. cbn [fst snd]. split; [done|].
  unfold got, logged. destruct (kind_key k) as [key|]; [|done].
  destruct (isUndefined _), (suits k _); cbn; try done.
  by destruct (silent w).
Qed.

Lemma got_field k r r' :
  (∀ key, kind_key k = Some key → field r' key = field r key) →
  got k r' = got k r.
Proof.
  intros H. unfold got. destruct (kind_key k) as [key|]; [|done].
  by rewrite (H key eq_refl).
Qed.

Lemma got_default k r :
  o_default (got k r)
  = match kind_key k with
    | Some key =>
      let v := field r key in
      if isUndefined v then None
      else if suits k v then Some (kept k v) else None
    | None => None
    end.
Proof.
  unfold got. destruct (kind_key k) as [key|]; [|by destruct k].
  cbn zeta. destruct (isUndefined _); [by destruct k|].
  destruct (suits k _); [done|by destruct k].
Qed.

(** X1. Two reads of the getter of one kind return two different objects
    with the same fields, whatever chain operations ([isRequired], [def],
    [validate]) were applied to the first in between: the second read is
    built anew from the factory and the defaults record, and neither read
    touches the first descriptor or any object that existed. *)
Theorem getter_reads_are_independent k fuel (VueTypes : nat) w ops :
  ∃ this w1,
    get k (S fuel) VueTypes w = (Ret this, w1)
    ∧ this = length (objects w)
    ∧ objects w1 !!! this = got k (defaults_of w VueTypes)
    ∧ let w2 := chain this ops w1 in
      ∃ this' w3,
        get k (S fuel) VueTypes w2 = (Ret this', w3)
        ∧ this' ≠ this
        ∧ objects w3 !!! this' = got k (defaults_of w VueTypes)
        ∧ objects w3 !!! this = objects w2 !!! this
        ∧ ∀ l, l < length (objects w) → objects w3 !!! l = objects w !!! l.
Proof.
  destruct (get_objects k fuel VueTypes w) as (Hr & Ho & Hrec & Hsp).
  destruct (get k (S fuel) VueTypes w) as [r w1]. cbn [fst snd] in *. subst r.
  exists (length (objects w)), w1. split; [done|]. split; [done|].
  split; [by rewrite Ho, lookup_total_new|].
  cbn zeta. set (this := length (objects w)).
  destruct (chain_frame this ops w1) as (Hrec2 & Hsp2 & Hlen & Hother & _).
  set (w2 := chain this ops w1) in *.
  destruct (get_objects k fuel VueTypes w2) as (Hr' & Ho' & _ & _).
  destruct (get k (S fuel) VueTypes w2) as [r' w3]. cbn [fst snd] in *.
  subst r'. exists (length (objects w2)), w3. split; [done|].
  assert (Hlen1 : length (objects w1) = S this).
  { rewrite Ho, length_app. cbn. lia. }
  assert (Hd : defaults_of w2 VueTypes = defaults_of w VueTypes).
  { unfold defaults_of. by rewrite Hrec2, Hsp2, Hrec, Hsp. }
  rewrite Ho', Hd, Hlen, Hlen1. split; [lia|].
  replace (S this) with (length (objects w2)) by lia.
  split; [by rewrite lookup_total_new|].
  split; [by rewrite lookup_total_old by lia|].
  intros l Hl. rewrite lookup_total_old by lia.
  rewrite Hother by (subst this; lia). rewrite Ho.
  by rewrite lookup_total_old.
Qed.

(** X2. The record [sensibleDefaults] returns is the live one: after
    [VueTypes.sensibleDefaults[key] = v] the getter of the kind that reads
    [key] builds its descriptor from [v] (default [v] when [def] takes it, no
    default otherwise), and the getters of the other kinds build what they
    built before. *)
Theorem sensibleDefaults_is_live k key fuel (VueTypes : nat) v w :
  ns_defaults (spaces w !!! VueTypes) < length (records w) →
  kind_key k = Some key →
  let w' :=
    ((get_sensibleDefaults VueTypes ≫= λ l, write_record l key v) w).2 in
  (∃ this w'',
     get k (S fuel) VueTypes w' = (Ret this, w'')
     ∧ o_default (objects w'' !!! this)
       = if isUndefined v then None
         else if suits k v then Some (kept k v) else None)
  ∧ ∀ k', kind_key k' ≠ Some key →
      objects (get k' (S fuel) VueTypes w').2
      = objects (get k' (S fuel) VueTypes w).2.
Proof.
  intros Hl Hk w'.
  assert (objects w' = objects w
          ∧ defaults_of w' VueTypes
            = <[key := v]> (defaults_of w VueTypes)) as [Ho Hd].
  { subst w'. unfold get_sensibleDefaults, defaults_of. unfold_M. cbn.
    split; [done|]. by rewrite list_lookup_total_alter_eq. }
  split.
  - destruct (get_objects k fuel VueTypes w') as (Hr & Hobj & _ & _).
    destruct (get k (S fuel) VueTypes w') as [r w'']. cbn [fst snd] in *.
    subst r. eexists _, _. split; [done|].
    rewrite Hobj, lookup_total_new, got_default, Hk, Hd. cbn zeta.
    unfold field. by rewrite lookup_insert_eq.
  - intros k' Hk'.
    destruct (get_objects k' fuel VueTypes w') as (_ & -> & _ & _).
    destruct (get_objects k' fuel VueTypes w) as (_ & -> & _ & _).
    rewrite Ho. f_equal. f_equal. apply got_field. intros key' Hkey'.
    rewrite Hd. unfold field. rewrite lookup_insert_ne; [done|]. congruence.
Qed.

Lemma sensibleDefaults_is_live_witness :
  ∃ this w'',
    get KString 1 0
      ((get_sensibleDefaults 0 ≫= λ l, write_record l "string" (VStr "x"))
         world1).2
    = (Ret this, w'')
    ∧ o_default (objects w'' !!! this) = Some (VStr "x").
Proof.
  destruct (sensibleDefaults_is_live KString "string" 0 0 (VStr "x") world1)
    as [Hget _].
  - vm_compute. lia.
  - reflexivity.
  - exact Hget.
Defined.

(** X3. [createTypes] adds one namespace and leaves the existing namespaces,
    records and objects as they were; the getter of every kind of the new
    namespace builds its descriptor from the config passed (from
    [typeDefaults()] when none is passed). *)
Theorem createTypes_getters_carry_the_config typeDefaults defs w k fuel :
  match defs with Some defs => defs < length (records w) | None => True end →
  let config :=
    match defs with Some defs => records w !!! defs | None => typeDefaults end in
  ∃ w1,
    createTypes typeDefaults defs w = (Ret (length (spaces w)), w1)
    ∧ ns_props (spaces w1 !!! length (spaces w)) = class_members
    ∧ (∀ n, n < length (spaces w) → spaces w1 !!! n = spaces w !!! n)
    ∧ (∀ l, l < length (records w) → records w1 !!! l = records w !!! l)
    ∧ objects w1 = objects w
    ∧ console w1 = console w
    ∧ ∃ this w2,
        get k (S fuel) (length (spaces w)) w1 = (Ret this, w2)
        ∧ objects w2 !!! this = got k config.
Proof.
  intros Hdefs config. rewrite createTypes_run. cbn zeta. eexists.
  split; [done|]. cbn [spaces records objects console with_spaces with_records].
  split; [by rewrite lookup_total_new|].
  split; [intros n Hn; by apply lookup_total_old|].
  split.
  { intros l Hl. destruct defs as [d|]; cbn [records with_records].
    - by apply lookup_total_old.
    - rewrite lookup_total_old; [by apply lookup_total_old|].
      rewrite length_app. cbn. lia. }
  split; [by destruct defs|]. split; [by destruct defs|].
  set (w1 := with_spaces _ _).
  destruct (get_objects k fuel (length (spaces w)) w1) as (Hr & Hobj & _ & _).
  destruct (get k (S fuel) (length (spaces w)) w1) as [r w2].
  cbn [fst snd] in *. subst r. eexists _, _. split; [done|].
  rewrite Hobj, lookup_total_new. f_equal.
  subst w1 config. unfold defaults_of.
  cbn [spaces records with_spaces with_records].
  rewrite lookup_total_new. cbn [ns_defaults]. rewrite lookup_total_new.
  destruct defs as [d|]; cbn [records with_records]; [done|].
  apply lookup_total_new.
Qed.

Lemma createTypes_getters_carry_the_config_witness :
  ∃ this w2,
    get KInteger 1 0 world_half = (Ret this, w2)
    ∧ objects w2 !!! this = got KInteger {[ "integer" := VNum 3 2 ]}.
Proof.
  destruct (createTypes_getters_carry_the_config example_defaults (Some 0)
              (new_record {[ "integer" := VNum 3 2 ]} world0).2 KInteger 0)
    as (w1 & Hrun & _ & _ & _ & _ & _ & Hget).
  - vm_compute. lia.
  - assert (w1 = world_half) as ->.
    { change world_half with
        (createTypes example_defaults (Some 0)
           (new_record {[ "integer" := VNum 3 2 ]} world0).2).2.
      by rewrite Hrun. }
    exact Hget.
Defined.

(** ** [extend]: what it installs and what it leaves alone *)

Lemma extended_plain objs props :
  plain_type objs props →
  extended objs props =
  (mkObj (p_type props) (p_required props) (p_default props)
     (p_validator props) None false,
   default false (p_validate props)).
Proof.
  unfold plain_type, extended.
  destruct (p_type props) as [[c|cs|base]|]; try done.
  intros ->. done.
Qed.

Lemma extend_several_run VueTypes specs w :
  extend VueTypes (Several specs) w =
  match forEach specs (extend_one VueTypes) w with
  | (Ret _, w') => (Ret VueTypes, w')
  | (Throw e, w') => (Throw e, w')
  | (NoVerdict, w') => (NoVerdict, w')
  end.
Proof.
  unfold extend. unfold_M.
  by destruct (forEach specs (extend_one VueTypes) w) as [[]?].
Qed.

Lemma forEach_app {A B} (l1 l2 : list A) (f : A → M B) w :
  forEach (l1 ++ l2) f w =
  match forEach l1 f w with
  | (Ret _, w') => forEach l2 f w'
  | (Throw e, w') => (Throw e, w')
  | (NoVerdict, w') => (NoVerdict, w')
  end.
Proof.
  revert w. induction l1 as [|x l1 IH]; intros w; [done|].
  rewrite <- app_comm_cons, !forEach_cons.
  destruct (f x w) as [[]?]; [apply IH|done|done].
Qed.

Lemma extend_one_props (VueTypes : nat) props w :
  VueTypes < length (spaces w) →
  has (spaces w !!! VueTypes) (p_name props) = false →
  let w' := (extend_one VueTypes props w).2 in
  extend_one VueTypes props w = (Ret VueTypes, w')
  ∧ ns_props (spaces w' !!! VueTypes)
    = <[p_name props := Extended (installed (objects w) props)]>
        (ns_props (spaces w !!! VueTypes))
  ∧ length (spaces w') = length (spaces w)
  ∧ length (objects w') = S (length (objects w)).
Proof.
  intros Hn Hhas. rewrite extend_one_run, Hhas. cbn.
  split; [done|]. split; [by rewrite lookup_total_alter_space|].
  split; [by rewrite length_alter|]. rewrite length_app. cbn. lia.
Qed.

(** X4. [extend] on a spec whose [type] is not a VueTypes descriptor, under
    a free name: the property is defined, and every use of it returns a
    descriptor named after the spec with exactly the [type], [required] and
    [default] of the spec, with the [validate] method when the spec asked for
    it, and with the validator of the spec, which in method form is called
    with the arguments of the call followed by the value. *)
Theorem extend_plain_spec (VueTypes : nat) props w :
  VueTypes < length (spaces w) →
  ns_props (spaces w !!! VueTypes) !! p_name props = None →
  plain_type (objects w) props →
  ∃ w1 m,
    extend VueTypes (One props) w = (Ret VueTypes, w1)
    ∧ ns_props (spaces w1 !!! VueTypes) !! p_name props = Some (Extended m)
    ∧ ∀ args, ∃ this w2,
        invoke m args w1 = (Ret this, w2)
        ∧ let d := objects w2 !!! this in
          o_name d = Some (p_name props)
          ∧ o_type d = p_type props
          ∧ o_required d = p_required props
          ∧ o_default d = p_default props
          ∧ o_validable d = default false (p_validate props)
          ∧ match p_validator props with
            | None => o_validator d = None
            | Some f =>
              ∃ g, o_validator d = Some g ∧
                ∀ objs v b,
                  returns objs g [v] b
                  ↔ returns objs f (passed m args ++ [v]) b
            end.
Proof.
  intros Hn Hfree Hplain.
  destruct (extend_one_installs VueTypes props w Hn Hfree)
    as (Hrun & Hm & Hopts & Hobjs).
  exists (extend_one VueTypes props w).2, (installed (objects w) props).
  split; [done|]. split; [done|]. intros args. rewrite invoke_run.
  eexists _, _. split; [done|]. cbn [objects with_objects].
  rewrite lookup_total_new, Hopts, Hobjs, lookup_total_new.
  unfold installed. rewrite (extended_plain _ _ Hplain). cbn [fst].
  destruct (default false (p_getter props)); cbn.
  - repeat (split; [done|]). destruct (p_validator props) as [f|]; [|done].
    by exists f.
  - destruct (p_validator props) as [f|]; cbn; [|done].
    repeat (split; [done|]). eexists. split; [done|].
    intros objs v b. apply returns_bound.
Qed.

Lemma extend_plain_spec_witness :
  ∃ w1 m,
    extend 0 (One tens) world1 = (Ret 0, w1)
    ∧ ns_props (spaces w1 !!! 0) !! "tens" = Some (Extended m)
    ∧ ∃ this w2,
        invoke m [VNum 3 1] w1 = (Ret this, w2)
        ∧ o_validable (objects w2 !!! this) = true.
Proof.
  destruct (extend_plain_spec 0 tens world1) as (w1 & m & Hrun & Hm & Huse).
  - vm_compute. lia.
  - reflexivity.
  - exact I.
  - exists w1, m. split; [exact Hrun|]. split; [exact Hm|].
    destruct (Huse [VNum 3 1]) as (this & w2 & Hinv & _ & _ & _ & _ & Hv & _).
    exists this, w2. split; [exact Hinv|exact Hv].
Defined.

Lemma forEach_extend_all (VueTypes : nat) specs : ∀ w,
  VueTypes < length (spaces w) →
  let names := p_name <$> specs in
  let free name := ns_props (spaces w !!! VueTypes) !! name = None in
  (∀ w1, forEach specs (extend_one VueTypes) w = (Ret tt, w1) →
     NoDup names
     ∧ (∀ name, name ∈ names → free name)
     ∧ (∀ name, name ∈ names →
          ∃ m, ns_props (spaces w1 !!! VueTypes) !! name = Some (Extended m))
     ∧ (∀ name, name ∉ names →
          ns_props (spaces w1 !!! VueTypes) !! name
          = ns_props (spaces w !!! VueTypes) !! name)
     ∧ length (objects w1) = length (objects w) + length specs)
  ∧ (NoDup names → (∀ name, name ∈ names → free name) →
     ∃ w1, forEach specs (extend_one VueTypes) w = (Ret tt, w1)).
Proof.
  induction specs as [|p specs IH]; intros w Hn; cbn zeta.
  { split; [|by eexists]. intros w1 [= <-].
    split; [constructor|]. split; [by intros ? ?%elem_of_nil|].
    split; [by intros ? ?%elem_of_nil|]. split; [done|]. cbn. lia. }
  rewrite fmap_cons, forEach_cons.
  destruct (has (spaces w !!! VueTypes) (p_name p)) eqn:Hhas.
  { rewrite extend_one_run, Hhas. split; [done|]. intros _ Hfree.
    apply has_true in Hhas as [m Hm].
    rewrite (Hfree (p_name p)) in Hm; [done|]. apply list_elem_of_here. }
  destruct (extend_one_props VueTypes p w Hn Hhas) as (Hrun & Hp & Hsp & Hob).
  rewrite Hrun. set (w' := (extend_one VueTypes p w).2) in *.
  assert (Hn' : VueTypes < length (spaces w')) by lia.
  destruct (IH w' Hn') as [IH1 IH2]. apply has_false in Hhas. split.
  - intros w1 Hw1.
    destruct (IH1 w1 Hw1) as (Hnd & Hfree & Hinst & Hrest & Hlen).
    assert (Hnew : p_name p ∉ p_name <$> specs).
    { intros Hin. specialize (Hfree _ Hin).
      by rewrite Hp, lookup_insert_eq in Hfree. }
    split; [by constructor|]. split.
    { intros name [->|Hin]%elem_of_cons; [done|]. specialize (Hfree _ Hin).
      rewrite Hp in Hfree. by apply lookup_insert_None in Hfree as [? _]. }
    split.
    { intros name [->|Hin]%elem_of_cons; [|by apply Hinst].
      rewrite (Hrest _ Hnew), Hp, lookup_insert_eq. by eexists. }
    split.
    { intros name Hname. apply not_elem_of_cons in Hname as [Hne Hname].
      by rewrite (Hrest _ Hname), Hp, lookup_insert_ne. }
    rewrite Hlen, Hob. cbn. lia.
  - intros Hnd Hfree. apply NoDup_cons in Hnd as [Hnew Hnd].
    apply IH2; [done|]. intros name Hin. rewrite Hp.
    apply lookup_insert_None. split.
    + apply Hfree. by apply list_elem_of_further.
    + intros <-. done.
Qed.

(** X5. [extend] on an array of specs returns (the class itself) exactly
    when the names of the specs are pairwise different and none of them is a
    property of the class yet; it has then defined a property for every spec,
    left the other properties as they were and stored one options object per
    spec. *)
Theorem extend_array_returns_iff (VueTypes : nat) specs w :
  VueTypes < length (spaces w) →
  let names := p_name <$> specs in
  ((∃ w1, extend VueTypes (Several specs) w = (Ret VueTypes, w1))
   ↔ NoDup names
     ∧ ∀ name, name ∈ names →
         ns_props (spaces w !!! VueTypes) !! name = None)
  ∧ ∀ w1, extend VueTypes (Several specs) w = (Ret VueTypes, w1) →
      (∀ name, name ∈ names →
         ∃ m, ns_props (spaces w1 !!! VueTypes) !! name = Some (Extended m))
      ∧ (∀ name, name ∉ names →
           ns_props (spaces w1 !!! VueTypes) !! name
           = ns_props (spaces w !!! VueTypes) !! name)
      ∧ length (objects w1) = length (objects w) + length specs.
Proof.
  intros Hn names. destruct (forEach_extend_all VueTypes specs w Hn)
    as [Hall Hrun].
  assert (Hret : ∀ w1, extend VueTypes (Several specs) w = (Ret VueTypes, w1) →
                 forEach specs (extend_one VueTypes) w = (Ret tt, w1)).
  { intros w1. rewrite extend_several_run.
    destruct (forEach specs (extend_one VueTypes) w) as [[[]| |] w'];
      by intros [= <-]. }
  split; [split|].
  - intros [w1 Hw1]. destruct (Hall w1 (Hret w1 Hw1)) as (? & ? & _). done.
  - intros [Hnd Hfree]. destruct (Hrun Hnd Hfree) as [w1 Hw1]. exists w1.
    by rewrite extend_several_run, Hw1.
  - intros w1 Hw1. destruct (Hall w1 (Hret w1 Hw1)) as (_ & _ & ? & ? & ?).
    done.
Qed.

Lemma extend_array_returns_iff_witness :
  ¬ ∃ w1, extend 0 (Several [tens; score_method; tens]) world_base
          = (Ret 0, w1).
Proof.
  destruct (extend_array_returns_iff 0 [tens; score_method; tens] world_base)
    as [[Hret _] _].
  - vm_compute. lia.
  - intros Hex. destruct (Hret Hex) as [Hnd _].
    apply NoDup_cons in Hnd as [Hnew _]. apply Hnew.
    apply list_elem_of_further, list_elem_of_here.
Defined.

(** X6. [extend] on an array is not all or nothing: when the specs in front
    have been taken and the next names a property that exists by then (one of
    the class, or one a spec in front has just defined), the call throws the
    TypeError naming it, the specs behind it are not looked at, and the store
    is the one the specs in front have left: their properties stay
    defined. *)
Theorem extend_array_stops_at_first_collision (VueTypes : nat) pre q post w w1 :
  extend VueTypes (Several pre) w = (Ret VueTypes, w1) →
  is_Some (ns_props (spaces w1 !!! VueTypes) !! p_name q) →
  extend VueTypes (Several (pre ++ q :: post)) w
  = (Throw (TypeError (already_defined (p_name q))), w1).
Proof.
  rewrite !extend_several_run, forEach_app. intros Hpre Hq.
  destruct (forEach pre (extend_one VueTypes) w) as [[[]| |] w'];
    try done. injection Hpre as ->.
  rewrite forEach_cons, extend_one_run.
  by rewrite (proj2 (has_true _ _) Hq).
Qed.

Lemma extend_array_stops_at_first_collision_witness :
  extend 0 (Several [tens; score_method; score_getter; tens]) world_base
  = (Throw (TypeError (already_defined "score")),
     (extend 0 (Several [tens; score_method]) world_base).2)
  ∧ is_Some
      (ns_props (spaces (extend 0 (Several [tens; score_method]) world_base).2
                 !!! 0) !! "tens").
Proof.
  split.
  - apply (extend_array_stops_at_first_collision 0 [tens; score_method]
             score_getter [tens] world_base).
    + reflexivity.
    + vm_compute. eexists. reflexivity.
  - vm_compute. eexists. reflexivity.
Defined.

Lemma grown_refl VueTypes w : grown VueTypes w w.
Proof.
  unfold grown. repeat (split; [done|]). split; [|done].
  exists []. by rewrite app_nil_r.
Qed.

Lemma grown_trans VueTypes w1 w2 w3 :
  grown VueTypes w1 w2 → grown VueTypes w2 w3 → grown VueTypes w1 w3.
Proof.
  intros (Hr & Hc & Hs & [a Ho] & Hl & Hn & Hd & Hf)
         (Hr' & Hc' & Hs' & [a' Ho'] & Hl' & Hn' & Hd' & Hf').
  unfold grown. split; [congruence|]. split; [congruence|].
  split; [congruence|]. split.
  { exists (a ++ a'). by rewrite Ho', Ho, app_assoc. }
  split; [congruence|]. split.
  { intros n Hne. by rewrite Hn', Hn. }
  split; congruence.
Qed.

Lemma extend_one_grown VueTypes props w :
  grown VueTypes w (extend_one VueTypes props w).2.
Proof.
  rewrite extend_one_run. destruct (has _ _); [apply grown_refl|].
  unfold grown. cbn. repeat (split; [done|]).
  split; [by eexists|]. split; [by rewrite length_alter|]. split.
  { intros n Hne. by rewrite list_lookup_total_alter_ne. }
  rewrite list_lookup_total_alter. by case_decide.
Qed.

Lemma forEach_extend_grown VueTypes specs w :
  grown VueTypes w (forEach specs (extend_one VueTypes) w).2.
Proof.
  revert w. induction specs as [|p specs IH]; intros w; [apply grown_refl|].
  rewrite forEach_cons. pose proof (extend_one_grown VueTypes p w) as Hp.
  destruct (extend_one VueTypes p w) as [[]w']; cbn [snd] in *; [|done|done].
  by eapply grown_trans.
Qed.

Lemma extend_grown VueTypes arg w :
  grown VueTypes w (extend VueTypes arg w).2.
Proof.
  destruct arg as [p|specs]; [apply extend_one_grown|].
  pose proof (forEach_extend_grown VueTypes specs w) as Hp.
  rewrite extend_several_run.
  by destruct (forEach specs (extend_one VueTypes) w) as [[]?].
Qed.

Lemma extended_by_grown VueTypes args w :
  grown VueTypes w (extended_by VueTypes args w).
Proof.
  revert w. induction args as [|arg args IH]; intros w; [apply grown_refl|].
  cbn. eapply grown_trans; [apply extend_grown|apply IH].
Qed.

Lemma extended_by_keeps VueTypes args w (n : nat) name m :
  ns_props (spaces w !!! n) !! name = Some m →
  ns_props (spaces (extended_by VueTypes args w) !!! n) !! name = Some m.
Proof.
  revert w. induction args as [|arg args IH]; intros w Hm; [done|].
  cbn. by apply IH, extend_keeps.
Qed.

Lemma grown_defaults VueTypes w w' (n : nat) :
  grown VueTypes w w' → defaults_of w' n = defaults_of w n.
Proof.
  intros (Hr & _ & _ & _ & _ & Hn & _ & Hf). unfold defaults_of. rewrite Hr.
  destruct (decide (n = VueTypes)) as [->|Hne]; [by rewrite Hf|].
  by rewrite Hn.
Qed.

(** X7. Whatever calls of [extend] are made on a namespace, and whether they
    return or throw: nothing is written to the console, every object that
    existed keeps its fields, the other namespaces are as they were, the
    properties the namespace had are still the same, and the getter of every
    kind, in every namespace, builds the descriptor it built before. *)
Theorem extend_only_adds (VueTypes : nat) args w :
  let w' := extended_by VueTypes args w in
  console w' = console w
  ∧ (∀ l, l < length (objects w) → objects w' !!! l = objects w !!! l)
  ∧ (∀ n : nat, n ≠ VueTypes → spaces w' !!! n = spaces w !!! n)
  ∧ (∀ name m,
       ns_props (spaces w !!! VueTypes) !! name = Some m →
       ns_props (spaces w' !!! VueTypes) !! name = Some m)
  ∧ ∀ (n : nat) k fuel, ∃ this w'',
      get k (S fuel) n w' = (Ret this, w'')
      ∧ objects w'' !!! this = got k (defaults_of w n).
Proof.
  intros w'. pose proof (extended_by_grown VueTypes args w) as Hg.
  fold w' in Hg. pose proof Hg as (Hr & Hc & Hs & [a Ho] & Hl & Hn & Hd & Hf).
  split; [done|]. split.
  { intros l Hlt. rewrite Ho. by apply lookup_total_app_l. }
  split; [done|]. split.
  { intros name m. apply extended_by_keeps. }
  intros n k fuel.
  destruct (get_objects k fuel n w') as (Hret & Hobj & _ & _).
  destruct (get k (S fuel) n w') as [r w'']. cbn [fst snd] in *. subst r.
  eexists _, _. split; [done|].
  by rewrite Hobj, lookup_total_new, (grown_defaults _ _ _ _ Hg).
Qed.

Lemma class_members_builtin name m :
  class_members !! name = Some m → m = Builtin.
Proof.
  unfold class_members. intros H%elem_of_list_to_map_2.
  apply list_elem_of_fmap in H as (k & [= _ ->] & _). done.
Qed.

(** X8. The own properties of the class ([name], [length], [prototype] and
    what its body declares) are reserved in every namespace [createTypes]
    returns: after any calls of [extend] on it, [extend] on a spec with such
    a name throws the TypeError naming it and changes nothing, and the
    property is still the one of the class. *)
Theorem class_members_are_reserved typeDefaults defs w args props :
  is_Some (class_members !! p_name props) →
  let VueTypes := length (spaces w) in
  let w1 := extended_by VueTypes args (createTypes typeDefaults defs w).2 in
  extend VueTypes (One props) w1
  = (Throw (TypeError (already_defined (p_name props))), w1)
  ∧ ns_props (spaces w1 !!! VueTypes) !! p_name props = Some Builtin.
Proof.
  intros [m Hm] VueTypes w1.
  pose proof (class_members_builtin _ _ Hm) as ->.
  assert (Hkept : ns_props (spaces w1 !!! VueTypes) !! p_name props
                  = Some Builtin).
  { subst w1. apply extended_by_keeps. rewrite createTypes_run. cbn.
    subst VueTypes. by rewrite lookup_total_new. }
  split; [|done]. cbn [extend]. rewrite extend_one_run.
  rewrite (proj2 (has_true _ _)); [done|]. by eexists.
Qed.

Lemma class_members_are_reserved_witness :
  extend 0 (One (mkProps "name" None None None None None None)) world1
  = (Throw (TypeError (already_defined "name")), world1).
Proof.
  apply (class_members_are_reserved example_defaults None world0 []
           (mkProps "name" None None None None None None)).
  vm_compute. eexists. reflexivity.
Defined.

(** ** [extend] on a descriptor, later on *)

Lemma named_exists (objs : list PropObj) (l : loc) :
  is_Some (o_name (objs !!! l)) → l < length objs.
Proof.
  intros [n Hn]. destruct (decide (l < length objs)) as [|Hge]; [done|].
  rewrite lookup_total_dangling in Hn by lia. done.
Qed.

Lemma returns_inherit_true objs base own args :
  returns objs (VInherit base own) args true ↔
  (∃ g, o_validator (objs !!! base) = Some g ∧ returns objs g args true)
  ∧ returns objs own args true.
Proof.
  rewrite returns_inherit. split.
  - intros (g & Hg & [[_ [=]]|[Hb Ho]]). split; [by exists g|done].
  - intros [(g & Hg & Hb) Ho]. exists g. split; [done|]. by right.
Qed.

Lemma passed_nothing m : passed m [] = [].
Proof. by destruct m. Qed.

Lemma extend_one_inherits (VueTypes : nat) props base w :
  VueTypes < length (spaces w) →
  ns_props (spaces w !!! VueTypes) !! p_name props = None →
  p_type props = Some (Obj base) →
  is_Some (o_name (objects w !!! base)) →
  let type := objects w !!! base in
  let own := default VStubTrue (p_validator props) in
  let m := installed (objects w) props in
  let stored := (extended (objects w) props).1 in
  let w1 := (extend_one VueTypes props w).2 in
  extend_one VueTypes props w = (Ret VueTypes, w1)
  ∧ ns_props (spaces w1 !!! VueTypes)
    = <[p_name props := Extended m]> (ns_props (spaces w !!! VueTypes))
  ∧ length (spaces w1) = length (spaces w)
  ∧ opts_of m = length (objects w)
  ∧ objects w1 = objects w ++ [stored]
  ∧ ∀ args,
      let d := built m stored args in
      o_name d = Some (p_name props)
      ∧ o_type d = o_type type
      ∧ o_required d
        = match o_required type with
          | Some r => Some r
          | None => p_required props
          end
      ∧ o_default d
        = match o_default type with
          | None | Some VUndef => p_default props
          | Some v => Some v
          end
      ∧ (is_Some (o_validator type) →
         ∃ f, o_validator d = Some f ∧
           ∀ objs vs b,
             returns objs f vs b
             ↔ returns objs (VInherit base own) (passed m args ++ vs) b).
Proof.
  intros Hn Hfree Ht Hbase type own m stored w1.
  destruct (extend_one_props VueTypes props w Hn (proj2 (has_false _ _) Hfree))
    as (Hrun & Hp & Hsp & _).
  destruct (extend_one_installs VueTypes props w Hn Hfree)
    as (_ & _ & Hopts & Hobjs).
  split; [done|]. split; [done|]. split; [done|]. split; [done|].
  split; [done|]. intros args. subst m stored. unfold installed.
  rewrite (extended_inherits _ _ _ Ht Hbase). fold type own. cbn [fst].
  destruct (inherit_fields type
              (mkObj (p_type props) (p_required props) (p_default props)
                 (p_validator props) None false)) as (Hty & Hreq & Hdef & Hval).
  cbn [o_required o_default o_validator] in Hreq, Hdef, Hval.
  destruct (o_validator type) as [g0|] eqn:Hg0.
  - rewrite bool_decide_eq_true_2 by eauto.
    destruct (default false (p_getter props)); cbn -[inherit returns].
    + repeat (split; [done|]). intros _. eexists. split; [done|]. done.
    + repeat (split; [done|]). intros _. eexists. split; [done|].
      intros objs vs b. apply returns_bound.
  - rewrite bool_decide_eq_false_2 by (intros [? [=]]).
    destruct (default false (p_getter props)); cbn -[inherit].
    + repeat (split; [done|]). by intros [? [=]].
    + destruct (o_validator (inherit type _)); cbn -[inherit];
        repeat (split; [done|]); by intros [? [=]].
Qed.

(** X9. What a property defined by [extend] on a descriptor takes from the
    base, it takes when [extend] runs: after chain operations on the base
    ([isRequired], [def], [validate]) every use of the property still returns
    a descriptor with the [type], [required] and [default] the base had at
    the time of [extend], and a use does not touch the base. *)
Theorem inherited_fields_are_a_snapshot (VueTypes : nat) props base w ops :
  VueTypes < length (spaces w) →
  ns_props (spaces w !!! VueTypes) !! p_name props = None →
  p_type props = Some (Obj base) →
  is_Some (o_name (objects w !!! base)) →
  let type := objects w !!! base in
  ∃ w1 m,
    extend VueTypes (One props) w = (Ret VueTypes, w1)
    ∧ ns_props (spaces w1 !!! VueTypes) !! p_name props = Some (Extended m)
    ∧ let w2 := chain base ops w1 in
      ∀ args, ∃ this w3,
        invoke m args w2 = (Ret this, w3)
        ∧ objects w3 !!! base = objects w2 !!! base
        ∧ let d := objects w3 !!! this in
          o_type d = o_type type
          ∧ o_required d
            = match o_required type with
              | Some r => Some r
              | None => p_required props
              end
          ∧ o_default d
            = match o_default type with
              | None | Some VUndef => p_default props
              | Some v => Some v
              end.
Proof.
  intros Hn Hfree Ht Hbase type.
  destruct (extend_one_inherits VueTypes props base w Hn Hfree Ht Hbase)
    as (Hrun & Hp & _ & Hopts & Hobjs & Hbuilt).
  pose proof (named_exists _ _ Hbase) as Hlt.
  eexists _, _. split; [exact Hrun|]. split; [by rewrite Hp, lookup_insert_eq|].
  set (w1 := (extend_one VueTypes props w).2) in *. cbn zeta.
  destruct (chain_frame base ops w1) as (_ & _ & Hlen & Hother & _).
  set (w2 := chain base ops w1) in *. intros args. rewrite invoke_run.
  eexists _, _. split; [done|]. cbn [objects with_objects].
  assert (Hlen1 : length (objects w1) = S (length (objects w))).
  { rewrite Hobjs, length_app. cbn. lia. }
  split; [apply lookup_total_old; lia|].
  rewrite lookup_total_new, Hopts, Hother by lia.
  rewrite Hobjs, lookup_total_new.
  destruct (Hbuilt args) as (_ & Hty & Hreq & Hdef & _). done.
Qed.

Lemma inherited_fields_are_a_snapshot_witness :
  ∃ w1 m,
    extend 0 (One score_method) world_base = (Ret 0, w1)
    ∧ ∃ this w3,
        invoke m [VNum 50 1] (chain 0 [OpIsRequired] w1) = (Ret this, w3)
        ∧ o_required (objects w3 !!! this) = None.
Proof.
  destruct (inherited_fields_are_a_snapshot 0 score_method 0 world_base
              [OpIsRequired])
    as (w1 & m & Hrun & _ & Huse).
  - vm_compute. lia.
  - reflexivity.
  - reflexivity.
  - vm_compute. eexists. reflexivity.
  - exists w1, m. split; [exact Hrun|].
    destruct (Huse [VNum 50 1]) as (this & w3 & Hinv & _ & _ & Hreq & _).
    exists this, w3. split; [exact Hinv|exact Hreq].
Defined.

(** X10. A property defined by [extend] on a descriptor whose base carries
    a validator, in method form: the validator of the descriptor
    [VueTypes.name(args)] accepts a value exactly when the validator the base
    has at that moment and the validator of the spec ([stubTrue] if there is
    none) both accept the arguments of the call followed by the value. *)
Theorem inherited_method_forwards_call_arguments (VueTypes : nat) props base w :
  VueTypes < length (spaces w) →
  ns_props (spaces w !!! VueTypes) !! p_name props = None →
  p_type props = Some (Obj base) →
  is_Some (o_name (objects w !!! base)) →
  is_Some (o_validator (objects w !!! base)) →
  default false (p_getter props) = false →
  let own := default VStubTrue (p_validator props) in
  ∃ w1 m,
    extend VueTypes (One props) w = (Ret VueTypes, w1)
    ∧ ns_props (spaces w1 !!! VueTypes) !! p_name props = Some (Extended m)
    ∧ ∀ args, ∃ this w2 f,
        invoke m args w1 = (Ret this, w2)
        ∧ o_validator (objects w2 !!! this) = Some f
        ∧ ∀ objs v,
            returns objs f [v] true
            ↔ (∃ g, o_validator (objs !!! base) = Some g
                    ∧ returns objs g (args ++ [v]) true)
              ∧ returns objs own (args ++ [v]) true.
Proof.
  intros Hn Hfree Ht Hbase Hval Hget own.
  destruct (extend_one_inherits VueTypes props base w Hn Hfree Ht Hbase)
    as (Hrun & Hp & _ & Hopts & Hobjs & Hbuilt).
  eexists _, _. split; [exact Hrun|]. split; [by rewrite Hp, lookup_insert_eq|].
  intros args. rewrite invoke_run.
  destruct (Hbuilt args) as (_ & _ & _ & _ & Hf).
  destruct (Hf Hval) as (f & Hd & Hcalls).
  eexists _, _, f. split; [done|]. cbn [objects with_objects].
  rewrite lookup_total_new, Hopts, Hobjs, lookup_total_new.
  split; [done|]. intros objs v. rewrite Hcalls, returns_inherit_true.
  assert (passed (installed (objects w) props) args = args) as ->; [|done].
  unfold installed. destruct (extended _ _). by rewrite Hget.
Qed.

Lemma inherited_method_forwards_call_arguments_witness :
  ∃ w1 m,
    extend 0 (One score_method) world_base = (Ret 0, w1)
    ∧ ∃ this w2 f,
        invoke m [VNum 50 1] w1 = (Ret this, w2)
        ∧ o_validator (objects w2 !!! this) = Some f
        ∧ (returns (objects world_base) f [VNum 5 1] true
           ↔ (∃ g, o_validator (objects world_base !!! 0) = Some g
                   ∧ returns (objects world_base) g [VNum 50 1; VNum 5 1] true)
             ∧ returns (objects world_base) VStubTrue [VNum 50 1; VNum 5 1]
                 true).
Proof.
  destruct (inherited_method_forwards_call_arguments 0 score_method 0
              world_base)
    as (w1 & m & Hrun & _ & Huse).
  - vm_compute. lia.
  - reflexivity.
  - reflexivity.
  - vm_compute. eexists. reflexivity.
  - vm_compute. eexists. reflexivity.
  - reflexivity.
  - exists w1, m. split; [exact Hrun|].
    destruct (Huse [VNum 50 1]) as (this & w2 & f & Hinv & Hf & Hiff).
    exists this, w2, f. split; [exact Hinv|]. split; [exact Hf|].
    exact (Hiff (objects world_base) (VNum 5 1)).
Defined.

(** X11. Inheritance composes along a chain.  A property is defined by
    [extend] on a base descriptor that carries a validator, it is used
    without arguments, and the descriptor it returns is the [type] of a
    second spec given to [extend]: every use of the second property returns a
    descriptor with the [type] of the base, whose validator accepts a value
    exactly when the validator the base has at that moment, the one of the
    first spec and the one of the second spec all accept the arguments of the
    call followed by the value. *)
Theorem inheritance_composes_along_a_chain (VueTypes : nat) pA base w :
  VueTypes < length (spaces w) →
  ns_props (spaces w !!! VueTypes) !! p_name pA = None →
  p_type pA = Some (Obj base) →
  is_Some (o_name (objects w !!! base)) →
  is_Some (o_validator (objects w !!! base)) →
  ∃ w1 mA a w2,
    extend VueTypes (One pA) w = (Ret VueTypes, w1)
    ∧ ns_props (spaces w1 !!! VueTypes) !! p_name pA = Some (Extended mA)
    ∧ invoke mA [] w1 = (Ret a, w2)
    ∧ ∀ pB,
        p_type pB = Some (Obj a) →
        ns_props (spaces w2 !!! VueTypes) !! p_name pB = None →
        ∃ w3 mB,
          extend VueTypes (One pB) w2 = (Ret VueTypes, w3)
          ∧ ns_props (spaces w3 !!! VueTypes) !! p_name pB
            = Some (Extended mB)
          ∧ ∀ args, ∃ this w4 f,
              invoke mB args w3 = (Ret this, w4)
              ∧ o_type (objects w4 !!! this) = o_type (objects w !!! base)
              ∧ o_validator (objects w4 !!! this) = Some f
              ∧ ∀ objs v,
                  o_validator (objs !!! a) = o_validator (objects w2 !!! a) →
                  let given := passed mB args ++ [v] in
                  returns objs f [v] true
                  ↔ (∃ g, o_validator (objs !!! base) = Some g
                          ∧ returns objs g given true)
                    ∧ returns objs (default VStubTrue (p_validator pA)) given
                        true
                    ∧ returns objs (default VStubTrue (p_validator pB)) given
                        true.
Proof.
  intros Hn HfreeA HtA Hbase Hval.
  destruct (extend_one_inherits VueTypes pA base w Hn HfreeA HtA Hbase)
    as (HrunA & HpA & HspA & HoptsA & HobjsA & HbuiltA).
  set (mA := installed (objects w) pA) in *.
  set (sA := (extended (objects w) pA).1) in *.
  set (w1 := (extend_one VueTypes pA w).2) in *.
  exists w1, mA, (length (objects w1)),
    (with_objects (objects w1 ++ [built mA sA []]) w1).
  split; [exact HrunA|]. split; [by rewrite HpA, lookup_insert_eq|].
  split.
  { rewrite invoke_run, HoptsA, HobjsA. by rewrite lookup_total_new. }
  destruct (HbuiltA []) as (HnameA & HtyA & _ & _ & HfA).
  destruct (HfA Hval) as (fA & HdA & HcallsA).
  set (dA := built mA sA []) in *.
  set (w2 := with_objects (objects w1 ++ [dA]) w1).
  set (a := length (objects w1)).
  assert (Ha : objects w2 !!! a = dA) by apply lookup_total_new.
  intros pB HtB HfreeB.
  assert (Hn2 : VueTypes < length (spaces w2)) by (cbn; lia).
  assert (HnamedA : is_Some (o_name (objects w2 !!! a))).
  { rewrite Ha, HnameA. by eexists. }
  destruct (extend_one_inherits VueTypes pB a w2 Hn2 HfreeB HtB HnamedA)
    as (HrunB & HpB & _ & HoptsB & HobjsB & HbuiltB).
  set (mB := installed (objects w2) pB) in *.
  set (sB := (extended (objects w2) pB).1) in *.
  set (w3 := (extend_one VueTypes pB w2).2) in *.
  exists w3, mB. split; [exact HrunB|].
  split; [by rewrite HpB, lookup_insert_eq|].
  intros args. destruct (HbuiltB args) as (_ & HtyB & _ & _ & HfB).
  pose proof (eq_trans (f_equal o_validator Ha) HdA) as HvA.
  pose proof (eq_trans HtyB (eq_trans (f_equal o_type Ha) HtyA)) as Hty.
  destruct HfB as (fB & HdB & HcallsB); [by exists fA|].
  exists (length (objects w3)),
    (with_objects (objects w3 ++ [built mB sB args]) w3), fB.
  split.
  { rewrite invoke_run, HoptsB, HobjsB. by rewrite lookup_total_new. }
  cbn [objects with_objects]. rewrite lookup_total_new.
  split; [done|]. split; [done|].
  intros objs v Hsame'. pose proof (eq_trans Hsame' HvA) as Hsame.
  set (given := passed mB args ++ [v]).
  rewrite HcallsB. fold given. rewrite returns_inherit_true. split.
  - intros [(g & Hg & Hacc) HownB]. rewrite Hsame in Hg. injection Hg as <-.
    apply HcallsA in Hacc. rewrite passed_nothing in Hacc. cbn [app] in Hacc.
    apply returns_inherit_true in Hacc as [Hb HownA]. done.
  - intros (Hb & HownA & HownB). split; [|done]. exists fA.
    split; [done|]. apply HcallsA. rewrite passed_nothing. cbn [app].
    by apply returns_inherit_true.
Qed.

Lemma inheritance_composes_along_a_chain_witness :
  ∃ w1 mA a w2,
    extend 0 (One score_getter) world_base = (Ret 0, w1)
    ∧ ns_props (spaces w1 !!! 0) !! "score" = Some (Extended mA)
    ∧ invoke mA [] w1 = (Ret a, w2).
Proof.
  destruct (inheritance_composes_along_a_chain 0 score_getter 0 world_base)
    as (w1 & mA & a & w2 & Hrun & Hm & Hinv & _).
  - vm_compute. lia.
  - reflexivity.
  - reflexivity.
  - vm_compute. eexists. reflexivity.
  - vm_compute. eexists. reflexivity.
  - exists w1, mA, a, w2. split; [exact Hrun|]. split; [exact Hm|exact Hinv].
Defined.

(** ** The defaults record across assignments *)

(** X12. An assignment to [sensibleDefaults] detaches the record the getter
    returned before it: the getter now returns another record, a property
    assigned through the old reference changes neither the defaults of the
    namespace, which are those just assigned, nor what the getter of any kind
    builds. *)
Theorem sensibleDefaults_assignment_detaches (VueTypes : nat) v key x w :
  VueTypes < length (spaces w) →
  ns_defaults (spaces w !!! VueTypes) < length (records w) →
  ∃ old w1 w2 new,
    get_sensibleDefaults VueTypes w = (Ret old, w)
    ∧ set_sensibleDefaults VueTypes v w = (Ret tt, w1)
    ∧ write_record old key x w1 = (Ret tt, w2)
    ∧ get_sensibleDefaults VueTypes w2 = (Ret new, w2)
    ∧ new ≠ old
    ∧ defaults_of w2 VueTypes = assigned w VueTypes v
    ∧ ∀ k fuel,
        objects (get k (S fuel) VueTypes w2).2
        = objects (get k (S fuel) VueTypes w1).2.
Proof.
  intros Hn Hold. set (old := ns_defaults (spaces w !!! VueTypes)) in *.
  rewrite set_sensibleDefaults_run.
  set (w1 := with_spaces _ _).
  exists old, w1, (write_record old key x w1).2, (length (records w)).
  split; [done|]. split; [done|]. split; [done|].
  set (w2 := (write_record old key x w1).2).
  assert (Hsp : spaces w2 = spaces w1) by done.
  assert (Hnew : ns_defaults (spaces w2 !!! VueTypes) = length (records w)).
  { rewrite Hsp. subst w1. cbn [spaces with_spaces].
    by rewrite lookup_total_alter_space. }
  assert (Hrec : defaults_of w2 VueTypes = assigned w VueTypes v).
  { unfold defaults_of. rewrite Hnew. subst w2 w1. unfold_M. cbn.
    rewrite list_lookup_total_alter_ne by lia. apply lookup_total_new. }
  split; [unfold get_sensibleDefaults; unfold_M; by rewrite Hnew|].
  split; [lia|]. split; [done|]. intros k fuel.
  destruct (get_objects k fuel VueTypes w2) as (_ & -> & _ & _).
  destruct (get_objects k fuel VueTypes w1) as (_ & -> & _ & _).
  rewrite Hrec. f_equal. f_equal. f_equal. unfold defaults_of. subst w1.
  cbn [spaces records with_spaces with_records].
  rewrite lookup_total_alter_space by done. cbn. by rewrite lookup_total_new.
Qed.

Lemma sensibleDefaults_assignment_detaches_witness :
  ∃ old w1 w2 new,
    get_sensibleDefaults 0 world1 = (Ret old, world1)
    ∧ set_sensibleDefaults 0 (Flag false) world1 = (Ret tt, w1)
    ∧ write_record old "string" (VStr "x") w1 = (Ret tt, w2)
    ∧ get_sensibleDefaults 0 w2 = (Ret new, w2)
    ∧ new ≠ old
    ∧ defaults_of w2 0 = ∅.
Proof.
  destruct (sensibleDefaults_assignment_detaches 0 (Flag false) "string"
              (VStr "x") world1)
    as (old & w1 & w2 & new & H1 & H2 & H3 & H4 & H5 & H6 & _).
  - vm_compute. lia.
  - vm_compute. lia.
  - exists old, w1, w2, new. repeat (split; [assumption|]). exact H6.
Defined.
